(** * TaskFlow service worker (sw.js): cache lifecycle, request routing
      and task reminders.

    The worker is a set of event listeners over the platform's cache
    storage.  The embedding keeps that shape: the platform state the
    listeners touch is a record [World], every platform call is an action
    of a small state monad over it, and each listener is written with the
    same sequence of calls as the JavaScript source.

    Modelling conventions.
    - A promise that rejects is an [option] (or a dedicated outcome type)
      carrying [None]; [undefined] handed to [respondWith] is [None] too.
    - A cache holds entries written from URL strings, which is all the
      worker does ([cache.put(url, ...)], [cache.addAll(paths)]): the
      stored request is a GET without headers, so a cache is a map from
      the URL without its fragment to the response.  A lookup with a
      request object follows the platform's matching: the method must be
      GET and the request must carry no header that the stored response
      names in [Vary].  Header names are kept in lower case.
    - [caches] is ordered: the platform enumerates and searches the named
      caches in creation order.
    - Asynchronous calls run to completion in program order. *)

From stdpp Require Import base option list gmap strings pretty.
From Stdlib Require Import ZArith Lia Ascii.

Local Open Scope string_scope.
Local Open Scope Z_scope.
Local Open Scope list_scope.

(** ** Constants of sw.js *)

Definition CACHE_NAME : string := "taskflow-v1.0.0".
Definition DATA_CACHE_NAME : string := "taskflow-data-v1.0.0".

Definition FILES_TO_CACHE : list string :=
  [ "/"; "/index.html"; "/static/js/bundle.js"; "/static/css/main.css";
    "/manifest.json"; "/favicon.ico" ].

(** ** Requests, responses, notifications, clients *)

(** A response: [vary] lists the field names of its [Vary] header ([*]
    for the wildcard), the one header the cache looks at. *)
Record Response := mkResponse { status : Z; vary : list string; body : string }.

Inductive Method := GET | HEAD | POST | PUT | DELETE | PATCH | OPTIONS.

Inductive RequestMode := navigate | same_origin | no_cors | cors.

Record Request := mkRequest {
  url : string;
  method : Method;
  mode : RequestMode;
  headers : list (string * string)
}.

Record Action := mkAction {
  action : string;
  a_title : string;
  a_icon : option string
}.

(** The title and the options handed to [showNotification]; an option the
    call leaves out is [None], the empty list or [false]. *)
Record Notification := mkNotification {
  n_title : string;
  n_body : string;
  n_icon : string;
  n_badge : option string;
  n_vibrate : list Z;
  n_data : option (Z * Z);
  n_tag : option string;
  n_requireInteraction : bool;
  n_actions : list Action
}.

(** A window client of the worker. *)
Record Client := mkClient { client_url : string; controlled : bool }.

(** A message posted to a client: its [type] and [message] fields. *)
Record ClientMessage := mkClientMessage { m_type : string; m_message : string }.

#[global] Instance Response_eq_dec : EqDecision Response.
Proof. solve_decision. Defined.
#[global] Instance Method_eq_dec : EqDecision Method.
Proof. solve_decision. Defined.
#[global] Instance RequestMode_eq_dec : EqDecision RequestMode.
Proof. solve_decision. Defined.
#[global] Instance Action_eq_dec : EqDecision Action.
Proof. solve_decision. Defined.
#[global] Instance Notification_eq_dec : EqDecision Notification.
Proof. solve_decision. Defined.
#[global] Instance Client_eq_dec : EqDecision Client.
Proof. solve_decision. Defined.

(** [new Response(text)]: status 200, no headers, the text as body. *)
Definition new_Response (text : string) : Response :=
  {| status := 200; vary := []; body := text |}.

(** [new Request(u)], the request the cache API makes of a URL string. *)
Definition Request_of (u : string) : Request :=
  {| url := u; method := GET; mode := cors; headers := [] |}.

(** The URL without its fragment: cached URLs are compared without it. *)
Fixpoint cache_key (u : string) : string :=
  match u with
  | EmptyString => EmptyString
  | String c rest =>
      if bool_decide (c = "#"%char) then EmptyString
      else String c (cache_key rest)
  end.

Definition has_header (name : string) (req : Request) : bool :=
  existsb (λ h, bool_decide (h.1 = name)) (headers req).

(** The [Vary] test of a stored entry against a request: the stored
    request has no headers, so every named field must be absent from the
    request, and the wildcard matches nothing. *)
Definition vary_allows (req : Request) (r : Response) : bool :=
  forallb (λ f, negb (bool_decide (f = "*")) && negb (has_header f req))
    (vary r).

(** Whether the entry stored under the URL of [req] answers [req]. *)
Definition matches (req : Request) (r : Response) : bool :=
  bool_decide (method req = GET) && vary_allows req r.

(** [cache.put] rejects a partial response and a [Vary: *] one. *)
Definition put_refused (r : Response) : bool :=
  bool_decide (status r = 206) || bool_decide ("*" ∈ vary r).

(** [haystack.includes(needle)] *)
Fixpoint includes (needle hay : string) : bool :=
  String.prefix needle hay ||
  match hay with
  | EmptyString => false
  | String _ rest => includes needle rest
  end.

(** ** Tasks *)

(** A task id is a JSON scalar; the template literal [`task-${task.id}`]
    prints a number in decimal and a string as it is. *)
Inductive JsId := IdNum (n : Z) | IdStr (s : string).

Definition id_to_string (i : JsId) : string :=
  match i with
  | IdNum n => pretty n
  | IdStr s => s
  end.

(** [dueDate] is [None] for [null]/[undefined]; the empty string is the
    other falsy value a date string can take. *)
Record Task := mkTask {
  id : JsId;
  text : string;
  dueDate : option string;
  completed : bool
}.

#[global] Instance JsId_eq_dec : EqDecision JsId.
Proof. solve_decision. Defined.
#[global] Instance Task_eq_dec : EqDecision Task.
Proof. solve_decision. Defined.

(** The task snapshot: a JavaScript object from group key to task array,
    in the object's own key order. *)
Definition Snapshot := list (string * list Task).

(** [event.data] of a message event, by its [type] field. *)
Inductive MessageData :=
  | MsgSkipWaiting
  | MsgCacheTaskData (tasks : Snapshot)
  | MsgOther.

(** ** The platform state *)

Record World := mkWorld {
  caches : list (string * gmap string Response);
  net_calls : nat;
  shown : list Notification;
  skip_waiting : bool;
  claimed : bool;
  windows : list Client;
  posted : list (nat * ClientMessage);
  focused : list nat;
  opened : list string;
  closed : nat
}.

Definition set_caches (f : list (string * gmap string Response) →
                           list (string * gmap string Response))
    (w : World) : World :=
  {| caches := f (caches w); net_calls := net_calls w; shown := shown w;
     skip_waiting := skip_waiting w; claimed := claimed w;
     windows := windows w; posted := posted w; focused := focused w;
     opened := opened w; closed := closed w |}.

(** The state monad of the listeners *)
Definition Act (A : Type) : Type := World → A * World.

#[global] Instance Act_ret : MRet Act := λ A x w, (x, w).
#[global] Instance Act_bind : MBind Act :=
  λ A B f m w, let '(a, w') := m w in f a w'.

Definition run {A} (m : Act A) (w : World) : A * World := m w.
Definition result {A} (m : Act A) (w : World) : A := (m w).1.
Definition after {A} (m : Act A) (w : World) : World := (m w).2.

(** [forEach] / [Promise.all(list.map(...))] over actions *)
Fixpoint for_each {A} (f : A → Act unit) (l : list A) : Act unit :=
  match l with
  | [] => mret ()
  | x :: rest => f x;; for_each f rest
  end.

(** ** Cache storage *)

Module Store.

Definition has_name (name : string) (g : string * gmap string Response) : bool :=
  bool_decide (g.1 = name).

(** The generation called [name], if the store has one. *)
Fixpoint generation (st : list (string * gmap string Response)) (name : string)
    : option (gmap string Response) :=
  match st with
  | [] => None
  | g :: rest => if has_name name g then Some g.2 else generation rest name
  end.

(** The entry stored for [key] in generation [name]. *)
Definition lookup (st : list (string * gmap string Response))
    (name key : string) : option Response :=
  generation st name ≫= λ c, c !! key.

Definition names (st : list (string * gmap string Response)) : list string :=
  st.*1.

(** [caches.open(name)]: the cache is created, last in order, when it
    does not exist yet. *)
Fixpoint open (name : string) (st : list (string * gmap string Response))
    : list (string * gmap string Response) :=
  match st with
  | [] => [(name, ∅)]
  | g :: rest => if has_name name g then g :: rest else g :: open name rest
  end.

(** [cache.put(key, response)] on the cache called [name] *)
Fixpoint put (name key : string) (r : Response)
    (st : list (string * gmap string Response))
    : list (string * gmap string Response) :=
  match st with
  | [] => []
  | g :: rest =>
      if has_name name g then (g.1, <[key := r]> g.2) :: rest
      else g :: put name key r rest
  end.

(** [cache.match(request)] on the entries [c] of one cache. *)
Definition match_in (c : gmap string Response) (req : Request)
    : option Response :=
  r ← c !! cache_key (url req);
  if matches req r then Some r else None.

(** [cache.match(request)] on the cache called [name]. *)
Definition match_cache (st : list (string * gmap string Response))
    (name : string) (req : Request) : option Response :=
  generation st name ≫= λ c, match_in c req.

(** [caches.match(request)]: the first hit over all caches, in creation
    order. *)
Fixpoint match_any (st : list (string * gmap string Response)) (req : Request)
    : option Response :=
  match st with
  | [] => None
  | g :: rest =>
      match match_in g.2 req with
      | Some r => Some r
      | None => match_any rest req
      end
  end.

(** [caches.delete(name)] *)
Definition delete (name : string) (st : list (string * gmap string Response))
    : list (string * gmap string Response) :=
  List.filter (λ g, negb (has_name name g)) st.

End Store.

(** ** Platform calls as actions *)

Definition caches_open (name : string) : Act unit :=
  λ w, ((), set_caches (Store.open name) w).

(** The write of an accepted entry for the URL [u]. *)
Definition cache_store (name u : string) (r : Response) : Act unit :=
  λ w, ((), set_caches (Store.put name (cache_key u) r) w).

(** [cache.put(u, response)] with a URL string: a refused response leaves
    a rejected promise, which the worker does not await, and no entry. *)
Definition cache_put (name u : string) (r : Response) : Act unit :=
  if put_refused r then mret () else cache_store name u r.

Definition cache_match (name : string) (req : Request) : Act (option Response) :=
  λ w, (Store.match_cache (caches w) name req, w).

Definition caches_match (req : Request) : Act (option Response) :=
  λ w, (Store.match_any (caches w) req, w).

Definition caches_keys : Act (list string) :=
  λ w, (Store.names (caches w), w).

Definition caches_delete (name : string) : Act unit :=
  λ w, ((), set_caches (Store.delete name) w).

Definition skipWaiting : Act unit :=
  λ w, ((), {| caches := caches w; net_calls := net_calls w; shown := shown w;
               skip_waiting := true; claimed := claimed w;
               windows := windows w; posted := posted w; focused := focused w;
               opened := opened w; closed := closed w |}).

(** [clients.claim()]: every window client becomes controlled. *)
Definition clients_claim : Act unit :=
  λ w, ((), {| caches := caches w; net_calls := net_calls w; shown := shown w;
               skip_waiting := skip_waiting w; claimed := true;
               windows := (λ c, {| client_url := client_url c;
                                   controlled := true |}) <$> windows w;
               posted := posted w; focused := focused w;
               opened := opened w; closed := closed w |}).

Definition showNotification (n : Notification) : Act unit :=
  λ w, ((), {| caches := caches w; net_calls := net_calls w;
               shown := shown w ++ [n];
               skip_waiting := skip_waiting w; claimed := claimed w;
               windows := windows w; posted := posted w; focused := focused w;
               opened := opened w; closed := closed w |}).

(** [fetch(request)] against the network [net]: [None] is a rejected
    fetch.  Every call is counted. *)
Definition fetch (net : Request → option Response) (req : Request)
    : Act (option Response) :=
  λ w, (net req, {| caches := caches w; net_calls := S (net_calls w);
                  shown := shown w; skip_waiting := skip_waiting w;
                  claimed := claimed w;
                  windows := windows w; posted := posted w;
                  focused := focused w; opened := opened w;
                  closed := closed w |}).

(** [clients.matchAll(options)]: window clients, each with its position in
    the platform's list as handle; uncontrolled ones only on request. *)
Definition clients_matchAll (includeUncontrolled : bool)
    : Act (list (nat * Client)) :=
  λ w, (List.filter (λ c, includeUncontrolled || controlled c.2)
          (imap (λ i c, (i, c)) (windows w)), w).

Definition postMessage (client : nat) (m : ClientMessage) : Act unit :=
  λ w, ((), {| caches := caches w; net_calls := net_calls w; shown := shown w;
               skip_waiting := skip_waiting w; claimed := claimed w;
               windows := windows w; posted := posted w ++ [(client, m)];
               focused := focused w; opened := opened w;
               closed := closed w |}).

Definition client_focus (client : nat) : Act unit :=
  λ w, ((), {| caches := caches w; net_calls := net_calls w; shown := shown w;
               skip_waiting := skip_waiting w; claimed := claimed w;
               windows := windows w; posted := posted w;
               focused := focused w ++ [client]; opened := opened w;
               closed := closed w |}).

Definition clients_openWindow (u : string) : Act unit :=
  λ w, ((), {| caches := caches w; net_calls := net_calls w; shown := shown w;
               skip_waiting := skip_waiting w; claimed := claimed w;
               windows := windows w; posted := posted w;
               focused := focused w; opened := opened w ++ [u];
               closed := closed w |}).

Definition notification_close : Act unit :=
  λ w, ((), {| caches := caches w; net_calls := net_calls w; shown := shown w;
               skip_waiting := skip_waiting w; claimed := claimed w;
               windows := windows w; posted := posted w;
               focused := focused w; opened := opened w;
               closed := S (closed w) |}).

(** ** The listeners *)

Inductive InstallOutcome := InstallDone | InstallRejected.

#[global] Instance InstallOutcome_eq_dec : EqDecision InstallOutcome.
Proof. solve_decision. Defined.

(** The platform's rule for the worker in control after an install
    attempt, by the name of the SHELL generation it serves: a worker whose
    install promise rejected is discarded and [previous] stays; one whose
    install resolved (and asked to skip waiting) takes over. *)
Definition serving (previous : option string) (o : InstallOutcome)
    : option string :=
  match o with
  | InstallDone => Some CACHE_NAME
  | InstallRejected => previous
  end.

(** [cache.addAll] rejects, writing nothing, unless every response has an
    ok status (200..299) other than 206 and no [Vary: *]. *)
Definition addable (r : Response) : bool :=
  (200 <=? status r) && (status r <=? 299) && negb (status r =? 206) &&
  negb (bool_decide ("*" ∈ vary r)).

Definition MS_PER_DAY : Z := 1000 * 60 * 60 * 24.

(** [Math.ceil(a / b)] for a positive divisor.  Time values are integers of
    magnitude at most 8.64e15 and the divisor is 8.64e7, so the double
    quotient of the source is an integer only when the exact one is, and
    the integer ceiling is what the source computes. *)
Definition ceil_div (a b : Z) : Z := - Z.div (- a) b.

Definition daysDiff (due now : Z) : Z := ceil_div (due - now) MS_PER_DAY.

Definition quote : string := String "034"%char EmptyString.

(** [daysDiff === 0 ? 'due today' : 'overdue'] *)
Definition due_label (days : Z) : string :=
  if days =? 0 then "due today" else "overdue".

Definition reminder_body (task : Task) (days : Z) : string :=
  quote +:+ text task +:+ quote +:+ " is " +:+ due_label days.

Definition reminder (task : Task) (days : Z) : Notification :=
  {| n_title := "TaskFlow - Task Due!";
     n_body := reminder_body task days;
     n_icon := "/favicon.ico";
     n_badge := None;
     n_vibrate := [];
     n_data := None;
     n_tag := Some ("task-" +:+ id_to_string (id task));
     n_requireInteraction := true;
     n_actions := [] |}.

(** A string is truthy unless it is empty. *)
Definition truthy (s : string) : bool :=
  match s with EmptyString => false | _ => true end.

(** The notification of the push listener; [payload] is
    [event.data.text()] when the push carries data. *)
Definition push_notification (payload : option string) (now : Z) : Notification :=
  {| n_title := "TaskFlow Reminder";
     n_body := match payload with
               | Some t => t
               | None => "You have tasks due soon!"
               end;
     n_icon := "/favicon.ico";
     n_badge := Some "/favicon.ico";
     n_vibrate := [100; 50; 100];
     n_data := Some (now, 1);
     n_tag := None;
     n_requireInteraction := false;
     n_actions := [ {| action := "view-tasks"; a_title := "View Tasks";
                       a_icon := Some "/favicon.ico" |};
                    {| action := "dismiss"; a_title := "Dismiss";
                       a_icon := None |} ] |}.

Definition SYNC_COMPLETE : ClientMessage :=
  {| m_type := "SYNC_COMPLETE";
     m_message := "Tasks synchronized successfully" |}.

Section Worker.

(** The origin the worker is served from; request URLs are absolute. *)
Variable origin : string.

(** [new Date(s).getTime()], [None] for an invalid date (NaN). *)
Variable Date_parse : string → option Z.

(** [JSON.stringify] on a snapshot and [response.json()] on a body;
    [None] is the syntax error thrown on a body that is not JSON. *)
Variable JSON_stringify : Snapshot → string.
Variable JSON_parse : string → option Snapshot.

(** A path handed to the cache API is resolved against the origin (which
    counts without a fragment, should the string have one). *)
Definition resolve (path : string) : string := cache_key origin +:+ path.

(** *** install *)

(** The fetches of [cache.addAll]: all are started, and the batch is
    kept only if each one resolved with an addable response. *)
Fixpoint fetch_assets (net : Request → option Response) (urls : list string)
    : Act (option (list (string * Response))) :=
  match urls with
  | [] => mret (Some [])
  | u :: rest =>
      r ← fetch net (Request_of u);
      rs ← fetch_assets net rest;
      mret (match r, rs with
            | Some resp, Some l =>
                if addable resp then Some ((u, resp) :: l) else None
            | _, _ => None
            end)
  end.

Definition cache_addAll (net : Request → option Response)
    (name : string) (urls : list string) : Act bool :=
  got ← fetch_assets net urls;
  match got with
  | Some entries =>
      for_each (λ e, cache_store name e.1 e.2) entries;; mret true
  | None => mret false
  end.

Definition on_install (net : Request → option Response) : Act InstallOutcome :=
  caches_open CACHE_NAME;;
  cached ← cache_addAll net CACHE_NAME (resolve <$> FILES_TO_CACHE);
  if cached : bool then skipWaiting;; mret InstallDone
  else mret InstallRejected.

(** *** activate *)

Definition stale (cacheName : string) : bool :=
  bool_decide (cacheName ≠ CACHE_NAME) &&
  bool_decide (cacheName ≠ DATA_CACHE_NAME).

Definition sweep (cacheName : string) : Act unit :=
  if stale cacheName then caches_delete cacheName else mret ().

Definition on_activate : Act unit :=
  cacheNames ← caches_keys;
  for_each sweep cacheNames;;
  clients_claim.

(** *** fetch *)

Definition is_data (req : Request) : bool := includes "/api/" (url req).

Definition on_fetch (net : Request → option Response) (req : Request)
    : Act (option Response) :=
  if is_data req then
    caches_open DATA_CACHE_NAME;;
    fetched ← fetch net req;
    match fetched with
    | Some response =>
        (if status response =? 200
         then cache_put DATA_CACHE_NAME (url req) response
         else mret ());;
        mret (Some response)
    | None => cache_match DATA_CACHE_NAME req
    end
  else
    response ← caches_match req;
    match response with
    | Some r => mret (Some r)
    | None =>
        fetched ← fetch net req;
        match fetched with
        | Some r => mret (Some r)
        | None =>
            if bool_decide (mode req = navigate)
            then caches_match (Request_of (resolve "/index.html"))
            else mret None
        end
    end.

(** *** sync *)

Definition syncTasks : Act unit :=
  clients ← clients_matchAll false;
  for_each (λ client, postMessage client.1 SYNC_COMPLETE) clients.

Definition on_sync (tag : string) : Act unit :=
  if bool_decide (tag = "background-sync-tasks") then syncTasks
  else mret ().

(** *** push *)

Definition on_push (payload : option string) (now : Z) : Act unit :=
  showNotification (push_notification payload now).

(** *** notificationclick *)

(** The loop over the client list: the first client whose URL is ["/"] is
    focused (a window client always has [focus]); with none, a window is
    opened. *)
Fixpoint focus_or_open (clientList : list (nat * Client)) : Act unit :=
  match clientList with
  | [] => clients_openWindow "/"
  | client :: rest =>
      if bool_decide (client_url client.2 = "/") then client_focus client.1
      else focus_or_open rest
  end.

Definition on_notificationclick (act : string) : Act unit :=
  notification_close;;
  if bool_decide (act = "view-tasks") then
    clientList ← clients_matchAll true;
    focus_or_open clientList
  else mret ().

(** *** message *)

Definition on_message (data : MessageData) : Act unit :=
  match data with
  | MsgSkipWaiting => skipWaiting
  | MsgCacheTaskData tasks =>
      caches_open DATA_CACHE_NAME;;
      cache_put DATA_CACHE_NAME (resolve "/tasks-data")
        (new_Response (JSON_stringify tasks))
  | MsgOther => mret ()
  end.

(** *** periodicsync *)

(** The body of the [forEach] over the flattened tasks. *)
Definition remind (now : Z) (task : Task) : Act unit :=
  match dueDate task with
  | Some d =>
      if truthy d then
        match Date_parse d with
        | Some due =>
            let days := daysDiff due now in
            if (days <=? 0) && negb (completed task)
            then showNotification (reminder task days)
            else mret ()
        | None => mret ()
        end
      else mret ()
  | None => mret ()
  end.

Definition checkTaskReminders (now : Z) : Act unit :=
  caches_open DATA_CACHE_NAME;;
  response ← cache_match DATA_CACHE_NAME (Request_of (resolve "/tasks-data"));
  match response with
  | Some r =>
      match JSON_parse (body r) with
      | Some tasks => for_each (remind now) (concat tasks.*2)
      | None => mret ()
      end
  | None => mret ()
  end.

Definition on_periodicsync (tag : string) (now : Z) : Act unit :=
  if bool_decide (tag = "task-reminders") then checkTaskReminders now
  else mret ().

End Worker.

(** ** Events *)

(** The events the worker listens to, with what the platform hands the
    listener.  ([error] and [unhandledrejection] only log.) *)
Inductive Event :=
  | Install (net : Request → option Response)
  | Activate
  | Fetch (net : Request → option Response) (req : Request)
  | Sync (tag : string)
  | Push (payload : option string) (now : Z)
  | NotificationClick (act : string)
  | Message (data : MessageData)
  | PeriodicSync (tag : string) (now : Z).

Section Dispatch.

Variable origin : string.
Variable Date_parse : string → option Z.
Variable JSON_stringify : Snapshot → string.
Variable JSON_parse : string → option Snapshot.

(** The listener registered for an event, run for its effect. *)
Definition dispatch (e : Event) : Act unit :=
  match e with
  | Install net => on_install origin net;; mret ()
  | Activate => on_activate
  | Fetch net req => on_fetch origin net req;; mret ()
  | Sync tag => on_sync tag
  | Push payload now => on_push payload now
  | NotificationClick act => on_notificationclick act
  | Message data => on_message origin JSON_stringify data
  | PeriodicSync tag now => on_periodicsync origin Date_parse JSON_parse tag now
  end.

Definition dispatch_all (events : list Event) : Act unit :=
  for_each dispatch events.

End Dispatch.

Definition is_install (e : Event) : bool :=
  match e with Install _ => true | _ => false end.

(** ** A concrete platform

    An executable instance of the platform functions the worker is
    parameterised by: ISO dates read in UTC, and JSON text for task
    snapshots.  It is used to run the listeners on concrete events. *)

Module Platform.

Definition example_origin : string := "https://taskflow.example".

(** *** Dates *)

(** Days from 1970-01-01 to the civil date [y]-[m]-[d]. *)
Definition days_from_civil (y m d : Z) : Z :=
  let y' := if m <=? 2 then y - 1 else y in
  let era := Z.div y' 400 in
  let yoe := y' - era * 400 in
  let mp := Z.modulo (m + 9) 12 in
  let doy := Z.div (153 * mp + 2) 5 + d - 1 in
  let doe := yoe * 365 + Z.div yoe 4 - Z.div yoe 100 + doy in
  era * 146097 + doe - 719468.

(** The time value of a UTC date and time of day. *)
Definition utc_ms (y m d hh mm : Z) : Z :=
  days_from_civil y m d * MS_PER_DAY + hh * 3600000 + mm * 60000.

Definition digit (c : ascii) : option Z :=
  let n := Z.of_nat (nat_of_ascii c) in
  if (48 <=? n) && (n <=? 57) then Some (n - 48) else None.

Fixpoint number_from (acc : Z) (s : string) : option Z :=
  match s with
  | EmptyString => Some acc
  | String c rest => d ← digit c; number_from (10 * acc + d) rest
  end.

Definition number (s : string) : option Z :=
  if truthy s then number_from 0 s else None.

Definition field (s : string) (start len : nat) : option Z :=
  number (String.substring start len s).

Definition in_range (lo hi x : Z) : bool := (lo <=? x) && (x <=? hi).

(** [YYYY-MM-DD] is midnight UTC; [YYYY-MM-DDTHH:MM] is read in a zone
    equal to UTC. *)
Definition Date_parse (s : string) : option Z :=
  y ← field s 0 4;
  m ← field s 5 2;
  d ← field s 8 2;
  if negb (bool_decide (String.substring 4 1 s = "-") &&
           bool_decide (String.substring 7 1 s = "-") &&
           in_range 1 12 m && in_range 1 31 d) then None
  else if bool_decide (String.length s = 10%nat) then Some (utc_ms y m d 0 0)
  else if bool_decide (String.length s = 16%nat) &&
          bool_decide (String.substring 10 1 s = "T") &&
          bool_decide (String.substring 13 1 s = ":") then
    hh ← field s 11 2;
    mm ← field s 14 2;
    if in_range 0 23 hh && in_range 0 59 mm then Some (utc_ms y m d hh mm)
    else None
  else None.

(** *** JSON text of task snapshots *)

Definition backslash : string := String "092"%char EmptyString.

Fixpoint escape (s : string) : string :=
  match s with
  | EmptyString => EmptyString
  | String c rest =>
      if bool_decide (c = "034"%char) || bool_decide (c = "092"%char)
      then String "092"%char (String c (escape rest))
      else String c (escape rest)
  end.

Definition json_string (s : string) : string := quote +:+ escape s +:+ quote.

Definition json_id (i : JsId) : string :=
  match i with
  | IdNum n => pretty n
  | IdStr s => json_string s
  end.

Definition json_task (t : Task) : string :=
  "{" +:+ json_string "id" +:+ ":" +:+ json_id (id t) +:+ "," +:+
  json_string "text" +:+ ":" +:+ json_string (text t) +:+ "," +:+
  json_string "dueDate" +:+ ":" +:+
    (match dueDate t with Some d => json_string d | None => "null" end) +:+
  "," +:+
  json_string "completed" +:+ ":" +:+
    (if completed t then "true" else "false") +:+ "}".

Fixpoint commas (items : list string) : string :=
  match items with
  | [] => EmptyString
  | [x] => x
  | x :: rest => x +:+ "," +:+ commas rest
  end.

Definition json_group (g : string * list Task) : string :=
  json_string g.1 +:+ ":[" +:+ commas (json_task <$> g.2) +:+ "]".

Definition JSON_stringify (tasks : Snapshot) : string :=
  "{" +:+ commas (json_group <$> tasks) +:+ "}".

Inductive token :=
  | TLBrace | TRBrace | TLBracket | TRBracket | TColon | TComma
  | TStr (s : string) | TNum (n : Z) | TWord (s : string).

Inductive lexmode :=
  | LPlain
  | LStr (acc : string) (escaped : bool)
  | LNum (negative : bool) (acc : Z)
  | LWord (acc : string).

Definition snoc (s : string) (c : ascii) : string :=
  s +:+ String c EmptyString.

Definition is_space (c : ascii) : bool :=
  bool_decide (c = " "%char) || bool_decide (c = "010"%char) ||
  bool_decide (c = "013"%char) || bool_decide (c = "009"%char).

Definition is_letter (c : ascii) : bool :=
  in_range 97 122 (Z.of_nat (nat_of_ascii c)).

Definition punct (c : ascii) : option token :=
  if bool_decide (c = "{"%char) then Some TLBrace
  else if bool_decide (c = "}"%char) then Some TRBrace
  else if bool_decide (c = "["%char) then Some TLBracket
  else if bool_decide (c = "]"%char) then Some TRBracket
  else if bool_decide (c = ":"%char) then Some TColon
  else if bool_decide (c = ","%char) then Some TComma
  else None.

Definition close_mode (m : lexmode) : option (list token) :=
  match m with
  | LPlain => Some []
  | LStr _ _ => None
  | LNum neg n => Some [TNum (if neg then - n else n)]
  | LWord w => Some [TWord w]
  end.

Fixpoint lex (m : lexmode) (s : string) : option (list token) :=
  match s with
  | EmptyString => close_mode m
  | String c rest =>
      let plain := λ _ : unit,
        if is_space c then lex LPlain rest
        else if bool_decide (c = "034"%char) then lex (LStr EmptyString false) rest
        else if bool_decide (c = "-"%char) then lex (LNum true 0) rest
        else if is_letter c then lex (LWord (String c EmptyString)) rest
        else match digit c with
             | Some d => lex (LNum false d) rest
             | None => t ← punct c; cons t <$> lex LPlain rest
             end in
      match m with
      | LPlain => plain ()
      | LStr acc true => lex (LStr (snoc acc c) false) rest
      | LStr acc false =>
          if bool_decide (c = "092"%char) then lex (LStr acc true) rest
          else if bool_decide (c = "034"%char)
          then cons (TStr acc) <$> lex LPlain rest
          else lex (LStr (snoc acc c) false) rest
      | LNum neg n =>
          match digit c with
          | Some d => lex (LNum neg (10 * n + d)) rest
          | None =>
              if is_letter c then None
              else cons (TNum (if neg then - n else n)) <$> plain ()
          end
      | LWord w =>
          if is_letter c then lex (LWord (snoc w c)) rest
          else if bool_decide (is_Some (digit c)) then None
          else cons (TWord w) <$> plain ()
      end
  end.

Inductive scalar := VStr (s : string) | VNum (n : Z) | VBool (b : bool) | VNull.

Definition scalar_of (t : token) : option scalar :=
  match t with
  | TStr s => Some (VStr s)
  | TNum n => Some (VNum n)
  | TWord w =>
      if bool_decide (w = "true") then Some (VBool true)
      else if bool_decide (w = "false") then Some (VBool false)
      else if bool_decide (w = "null") then Some VNull
      else None
  | _ => None
  end.

(** The members of an object of scalars, after its opening brace. *)
Fixpoint members (ts : list token) : option (list (string * scalar) * list token) :=
  match ts with
  | TRBrace :: rest => Some ([], rest)
  | TStr k :: TColon :: v :: TRBrace :: rest =>
      x ← scalar_of v; Some ([(k, x)], rest)
  | TStr k :: TColon :: v :: TComma :: rest =>
      x ← scalar_of v;
      '(more, rest') ← members rest;
      Some ((k, x) :: more, rest')
  | _ => None
  end.

Fixpoint member (k : string) (ms : list (string * scalar)) : option scalar :=
  match ms with
  | [] => None
  | (k', v) :: rest => if bool_decide (k' = k) then Some v else member k rest
  end.

Definition task_of (ms : list (string * scalar)) : option Task :=
  i ← match member "id" ms with
      | Some (VNum n) => Some (IdNum n)
      | Some (VStr s) => Some (IdStr s)
      | _ => None
      end;
  t ← match member "text" ms with Some (VStr s) => Some s | _ => None end;
  d ← match member "dueDate" ms with
      | Some (VStr s) => Some (Some s)
      | Some VNull | None => Some None
      | _ => None
      end;
  c ← match member "completed" ms with
      | Some (VBool b) => Some b
      | None => Some false
      | _ => None
      end;
  Some {| id := i; text := t; dueDate := d; completed := c |}.

(** The elements of an array of task objects, after its opening
    bracket; [fuel] bounds the number of tokens read. *)
Fixpoint elements (fuel : nat) (ts : list token) : option (list Task * list token) :=
  match fuel with
  | O => None
  | S fuel' =>
      match ts with
      | TRBracket :: rest => Some ([], rest)
      | TComma :: rest => elements fuel' rest
      | TLBrace :: rest =>
          '(ms, rest') ← members rest;
          t ← task_of ms;
          '(more, rest'') ← elements fuel' rest';
          Some (t :: more, rest'')
      | _ => None
      end
  end.

Fixpoint groups (fuel : nat) (ts : list token) : option Snapshot :=
  match fuel with
  | O => None
  | S fuel' =>
      match ts with
      | [TRBrace] => Some []
      | TComma :: rest => groups fuel' rest
      | TStr k :: TColon :: TLBracket :: rest =>
          '(tasks, rest') ← elements (length rest) rest;
          more ← groups fuel' rest';
          Some ((k, tasks) :: more)
      | _ => None
      end
  end.

Definition JSON_parse (body : string) : option Snapshot :=
  ts ← lex LPlain body;
  match ts with
  | TLBrace :: rest => groups (length rest) rest
  | _ => None
  end.

End Platform.

(** ** Specification-side functions *)

(** What a sweep over the names [l] leaves of a store. *)
Definition keep (l : list string) (st : list (string * gmap string Response))
    : list (string * gmap string Response) :=
  List.filter (λ g, negb (stale g.1 && bool_decide (g.1 ∈ l))) st.

(** The generations carrying one of the two current names. *)
Definition retained (st : list (string * gmap string Response))
    : list (string * gmap string Response) :=
  List.filter (λ g, negb (stale g.1)) st.

(** The batch [cache.addAll] gets from the network [net] for [urls]: the
    fetched entries when every one is addable. *)
Fixpoint batch (net : Request → option Response) (urls : list string)
    : option (list (string * Response)) :=
  match urls with
  | [] => Some []
  | u :: rest =>
      match net (Request_of u), batch net rest with
      | Some resp, Some l =>
          if addable resp then Some ((u, resp) :: l) else None
      | _, _ => None
      end
  end.

(** The store after the entries [l] are put in generation [name]. *)
Definition put_all (name : string) (l : list (string * Response))
    (st : list (string * gmap string Response))
    : list (string * gmap string Response) :=
  foldl (λ st e, Store.put name (cache_key e.1) e.2 st) st l.

(** An asset the network delivers in a form [cache.addAll] accepts. *)
Definition delivered (net : Request → option Response) (u : string) : Prop :=
  ∃ r, net (Request_of u) = Some r ∧ addable r = true.

(** One change a listener makes to the store: it leaves it, opens a cache
    under a current name, puts an entry in a cache that [writable] admits,
    or sweeps. *)
Inductive store_step (writable : string → Prop)
    (st : list (string * gmap string Response))
    : list (string * gmap string Response) → Prop :=
  | step_open name :
      stale name = false → store_step writable st (Store.open name st)
  | step_put name k r :
      writable name → store_step writable st (Store.put name k r st)
  | step_sweep : store_step writable st (retained st).

(** A window client once claimed. *)
Definition claim_window (c : Client) : Client :=
  {| client_url := client_url c; controlled := true |}.

(** The test of the notificationclick loop. *)
Definition shows_root (c : nat * Client) : bool :=
  bool_decide (client_url c.2 = "/").

(** The notification the reminder pass raises for one task, if any. *)
Definition notice (Date_parse : string → option Z) (now : Z) (task : Task)
    : option Notification :=
  d ← dueDate task;
  if truthy d then
    due ← Date_parse d;
    if (daysDiff due now <=? 0) && negb (completed task)
    then Some (reminder task (daysDiff due now))
    else None
  else None.

(** ** Concrete events *)

Module Examples.

Definition origin : string := "https://taskflow.example".

Definition empty_world : World :=
  {| caches := []; net_calls := 0; shown := []; skip_waiting := false;
     claimed := false; windows := []; posted := []; focused := [];
     opened := []; closed := 0 |}.

Definition with_caches (st : list (string * gmap string Response)) : World :=
  set_caches (λ _, st) empty_world.

(** A network that answers the listed URLs and rejects every other. *)
Definition net_of (answers : list (string * Response)) (req : Request)
    : option Response :=
  (list_to_map answers : gmap string Response) !! url req.

Definition offline : Request → option Response := net_of [].

Definition api_request : Request :=
  {| url := origin +:+ "/api/tasks"; method := GET; mode := cors;
     headers := [] |}.

(** The same URL, posted to. *)
Definition api_post : Request :=
  {| url := origin +:+ "/api/tasks"; method := POST; mode := cors;
     headers := [("content-type", "application/json")] |}.

Definition index_request : Request :=
  {| url := origin +:+ "/index.html"; method := GET; mode := navigate;
     headers := [] |}.



Definition image_request : Request :=
  {| url := origin +:+ "/logo.png"; method := GET; mode := no_cors;
     headers := [] |}.

Definition created : Response :=
  {| status := 201; vary := []; body := "{}" |}.
Definition not_found : Response :=
  {| status := 404; vary := []; body := "no such file" |}.
Definition tasks_json : Response :=
  {| status := 200; vary := []; body := "[1,2]" |}.
Definition old_index : Response :=
  {| status := 200; vary := []; body := "old shell" |}.
Definition new_index : Response :=
  {| status := 200; vary := []; body := "new shell" |}.

Definition asset (a : string) : Response :=
  {| status := 200; vary := ["accept-encoding"]; body := a |}.

(** A network that delivers every shell asset but the script bundle. *)
Definition bundle_missing : Request → option Response :=
  net_of ((λ a, (origin +:+ a, asset a)) <$>
          [ "/"; "/index.html"; "/static/css/main.css"; "/manifest.json";
            "/favicon.ico" ]).

(** A network that delivers every shell asset. *)
Definition all_assets : Request → option Response :=
  net_of ((λ a, (origin +:+ a, asset a)) <$> FILES_TO_CACHE).

(** A store in which a generation of an earlier version, created first,
    still holds the root document. *)
Definition two_shells : list (string * gmap string Response) :=
  [ ("taskflow-v0.9.0", {[ url index_request := old_index ]});
    (CACHE_NAME, {[ url index_request := new_index ]}) ].

Definition shell_only : list (string * gmap string Response) :=
  [ (CACHE_NAME, {[ url index_request := new_index ]}) ].

(** The state after this worker was installed and activated on an empty
    store, and after it then answered a first request for the task list. *)
Definition installed : World :=
  after on_activate (after (on_install origin all_assets) empty_world).

Definition tasks_fetched : World :=
  after (on_fetch origin (net_of [(url api_request, tasks_json)]) api_request)
    installed.

(** The snapshot [{work: [{id:1, text:"x", dueDate:"2024-01-01",
    completed:false}]}]. *)
Definition task1 : Task :=
  {| id := IdNum 1; text := "x"; dueDate := Some "2024-01-01";
     completed := false |}.

Definition one_task : Snapshot := [("work", [task1])].

(** Three open windows, the second one not controlled by the worker. *)
Definition three_windows : list Client :=
  [ {| client_url := origin +:+ "/"; controlled := true |};
    {| client_url := origin +:+ "/settings"; controlled := false |};
    {| client_url := "/"; controlled := true |} ].

Definition with_windows (ws : list Client) : World :=
  {| caches := []; net_calls := 0; shown := []; skip_waiting := false;
     claimed := false; windows := ws; posted := []; focused := [];
     opened := []; closed := 0 |}.

Definition two_tasks : Snapshot :=
  [ ("work", [task1]);
    ("home", [ {| id := IdStr "b"; text := "done long ago";
                  dueDate := Some "2023-12-01"; completed := true |};
               {| id := IdNum 3; text := "some day"; dueDate := None;
                  completed := false |} ]) ].

Definition due_at (d : string) : Task :=
  {| id := IdNum 7; text := "report"; dueDate := Some d; completed := false |}.

End Examples.

(** * Properties *)

(** ** The state monad *)

Lemma after_bind {A B} (m : Act A) (f : A → Act B) w :
  after (m ≫= f) w = after (f (result m w)) (after m w).
Proof. unfold after, result, mbind, Act_bind. by destruct (m w). Qed.

Lemma result_bind {A B} (m : Act A) (f : A → Act B) w :
  result (m ≫= f) w = result (f (result m w)) (after m w).
Proof. unfold after, result, mbind, Act_bind. by destruct (m w). Qed.

Lemma run_result_after {A} (m : Act A) w a w' :
  run m w = (a, w') → result m w = a ∧ after m w = w'.
Proof. unfold run, result, after. by intros ->. Qed.

Lemma set_caches_id w : set_caches (λ st, st) w = w.
Proof. by destruct w. Qed.

Lemma set_caches_compose f g w :
  set_caches f (set_caches g w) = set_caches (λ st, f (g st)) w.
Proof. done. Qed.

Lemma set_caches_ext f g w :
  f (caches w) = g (caches w) → set_caches f w = set_caches g w.
Proof. unfold set_caches. by intros ->. Qed.

(** ** The store *)

Lemma has_name_true name g : Store.has_name name g = true ↔ g.1 = name.
Proof. unfold Store.has_name. by rewrite bool_decide_eq_true. Qed.

Lemma has_name_false name g : Store.has_name name g = false ↔ g.1 ≠ name.
Proof. unfold Store.has_name. by rewrite bool_decide_eq_false. Qed.

Lemma open_existing name st c :
  Store.generation st name = Some c → Store.open name st = st.
Proof.
  induction st as [|g st IH]; simpl; [done|].
  destruct (Store.has_name name g); [done|].
  intros H. by rewrite IH.
Qed.

Lemma generation_open name st :
  Store.generation (Store.open name st) name =
  Some (default ∅ (Store.generation st name)).
Proof.
  induction st as [|g st IH]; simpl.
  - unfold Store.has_name. simpl. by rewrite bool_decide_eq_true_2.
  - destruct (Store.has_name name g) eqn:E; simpl; rewrite E; done.
Qed.

Lemma generation_open_other name g st :
  g ≠ name →
  Store.generation (Store.open name st) g = Store.generation st g.
Proof.
  intros Hne. induction st as [|x st IH]; simpl.
  - unfold Store.has_name. simpl. by rewrite bool_decide_eq_false_2.
  - destruct (Store.has_name name x) eqn:E; simpl; [done|].
    by rewrite IH.
Qed.

(** Opening a cache changes no entry of any generation. *)
Lemma lookup_open name st g k :
  Store.lookup (Store.open name st) g k = Store.lookup st g k.
Proof.
  unfold Store.lookup. destruct (decide (g = name)) as [-> | Hne].
  - rewrite generation_open. by destruct (Store.generation st name).
  - by rewrite generation_open_other.
Qed.

Lemma match_any_open name st req :
  Store.match_any (Store.open name st) req = Store.match_any st req.
Proof.
  induction st as [|g st IH]; simpl; [done|].
  destruct (Store.has_name name g); simpl; [done|].
  by rewrite IH.
Qed.

(** A lookup with a request, by the entry under the request's key. *)
Lemma match_cache_lookup st name req :
  Store.match_cache st name req =
  match Store.lookup st name (cache_key (url req)) with
  | Some r => if matches req r then Some r else None
  | None => None
  end.
Proof.
  unfold Store.match_cache, Store.lookup, Store.match_in.
  destruct (Store.generation st name) as [c|]; simpl; [|done].
  by destruct (c !! cache_key (url req)).
Qed.

Lemma match_cache_open name st g req :
  Store.match_cache (Store.open name st) g req = Store.match_cache st g req.
Proof. by rewrite !match_cache_lookup, lookup_open. Qed.



Lemma matches_get req r :
  method req = GET → vary_allows req r = true → matches req r = true.
Proof. intros Hm Hv. unfold matches. by rewrite Hm, Hv. Qed.


Lemma generation_put_same name k r st :
  Store.generation (Store.put name k r st) name =
  (λ c, <[k := r]> c) <$> Store.generation st name.
Proof.
  induction st as [|g st IH]; simpl; [done|].
  destruct (Store.has_name name g) eqn:E; simpl.
  - apply has_name_true in E. unfold Store.has_name. simpl.
    by rewrite bool_decide_eq_true_2.
  - by rewrite E.
Qed.

Lemma generation_put_other name k r st g :
  g ≠ name →
  Store.generation (Store.put name k r st) g = Store.generation st g.
Proof.
  intros Hne. induction st as [|x st IH]; simpl; [done|].
  destruct (Store.has_name name x) eqn:E; simpl.
  - apply has_name_true in E.
    assert (Store.has_name g x = false) as -> by (apply has_name_false; congruence).
    assert (Store.has_name g (x.1, <[k:=r]> x.2) = false) as ->
      by (apply has_name_false; simpl; congruence).
    done.
  - by rewrite IH.
Qed.

(** A put is read back from the cache it went to. *)
Lemma lookup_put_eq name k r st :
  is_Some (Store.generation st name) →
  Store.lookup (Store.put name k r st) name k = Some r.
Proof.
  intros [c Hc]. unfold Store.lookup.
  rewrite generation_put_same, Hc. simpl. apply lookup_insert_eq.
Qed.

(** A put leaves every other entry alone. *)
Lemma lookup_put_ne name k r st g k' :
  g ≠ name ∨ k' ≠ k →
  Store.lookup (Store.put name k r st) g k' = Store.lookup st g k'.
Proof.
  intros Hne. unfold Store.lookup.
  destruct (decide (g = name)) as [-> | Hg].
  - rewrite generation_put_same.
    destruct (Store.generation st name); simpl; [|done].
    destruct Hne as [?|?]; [done|]. by rewrite lookup_insert_ne.
  - by rewrite generation_put_other.
Qed.

Lemma names_put name k r st :
  Store.names (Store.put name k r st) = Store.names st.
Proof.
  unfold Store.names. induction st as [|g st IH]; simpl; [done|].
  destruct (Store.has_name name g); simpl; [done|]. by f_equal.
Qed.

(** ** activate *)

Lemma filter_all {A} (f : A → bool) (l : list A) :
  (∀ x, In x l → f x = true) → List.filter f l = l.
Proof.
  induction l as [|x l IH]; simpl; [done|]. intros H.
  rewrite (H x) by auto. f_equal. apply IH. auto.
Qed.

Lemma filter_twice {A} (f g : A → bool) (l : list A) :
  List.filter f (List.filter g l) = List.filter (λ x, g x && f x) l.
Proof.
  induction l as [|x l IH]; simpl; [done|].
  destruct (g x); simpl; [|done]. destruct (f x); by rewrite IH.
Qed.

Lemma stale_false name :
  stale name = false ↔ name = CACHE_NAME ∨ name = DATA_CACHE_NAME.
Proof.
  unfold stale. rewrite andb_false_iff, !bool_decide_eq_false.
  split.
  - intros [H|H]; [left|right]; by apply dec_stable.
  - intros [-> | ->]; [left|right]; by intros ?.
Qed.

Lemma keep_nil st : keep [] st = st.
Proof.
  apply filter_all. intros g _.
  rewrite bool_decide_eq_false_2 by apply not_elem_of_nil.
  by rewrite andb_false_r.
Qed.

Lemma keep_cons_stale x l st :
  stale x = true → keep l (Store.delete x st) = keep (x :: l) st.
Proof.
  intros Hx. unfold keep, Store.delete. rewrite filter_twice.
  apply filter_ext. intros g. unfold Store.has_name.
  destruct (decide (g.1 = x)) as [-> | Hne].
  - rewrite bool_decide_eq_true_2 by done. simpl.
    rewrite Hx, bool_decide_eq_true_2; [done|]. apply elem_of_cons. by left.
  - rewrite bool_decide_eq_false_2 by done. simpl.
    f_equal. f_equal. apply bool_decide_ext.
    rewrite elem_of_cons. tauto.
Qed.

Lemma keep_cons_current x l st :
  stale x = false → keep l st = keep (x :: l) st.
Proof.
  intros Hx. unfold keep. apply filter_ext. intros g.
  destruct (decide (g.1 = x)) as [-> | Hne].
  - by rewrite Hx.
  - f_equal. f_equal. apply bool_decide_ext.
    rewrite elem_of_cons. tauto.
Qed.

(** The loop of the activate listener over any list of names. *)
Lemma sweep_all l w : after (for_each sweep l) w = set_caches (keep l) w.
Proof.
  revert w. induction l as [|x l IH]; intros w; simpl.
  - unfold after, mret, Act_ret. simpl. symmetry.
    rewrite <- (set_caches_id w) at 2. apply set_caches_ext, keep_nil.
  - rewrite after_bind, IH. unfold sweep. destruct (stale x) eqn:Hx.
    + unfold after, caches_delete. simpl. rewrite set_caches_compose.
      apply set_caches_ext. by apply keep_cons_stale.
    + unfold after, mret, Act_ret. simpl.
      apply set_caches_ext. by apply keep_cons_current.
Qed.

Lemma keep_names st : keep (Store.names st) st = retained st.
Proof.
  unfold keep, retained. apply filter_ext_in. intros g Hg.
  rewrite (bool_decide_eq_true_2 (g.1 ∈ Store.names st)).
  - by rewrite andb_true_r.
  - unfold Store.names. apply list_elem_of_fmap. exists g. split; [done|].
    by apply list_elem_of_In.
Qed.

(** The state the activate listener leaves. *)
Lemma on_activate_after w :
  after on_activate w =
  {| caches := retained (caches w); net_calls := net_calls w;
     shown := shown w; skip_waiting := skip_waiting w; claimed := true;
     windows := claim_window <$> windows w; posted := posted w;
     focused := focused w; opened := opened w; closed := closed w |}.
Proof.
  unfold on_activate. rewrite after_bind.
  replace (after caches_keys w) with w by done.
  replace (result caches_keys w) with (Store.names (caches w)) by done.
  rewrite after_bind, sweep_all.
  unfold after, clients_claim. simpl. by rewrite keep_names.
Qed.

Lemma names_retained st name :
  name ∈ Store.names (retained st) ↔
  name ∈ Store.names st ∧ stale name = false.
Proof.
  unfold Store.names, retained. rewrite !list_elem_of_fmap. split.
  - intros (g & -> & Hg). apply list_elem_of_In, filter_In in Hg.
    destruct Hg as [Hg Hs]. apply negb_true_iff in Hs. split; [|done].
    exists g. split; [done|]. by apply list_elem_of_In.
  - intros [(g & -> & Hg) Hs]. exists g. split; [done|].
    apply list_elem_of_In, filter_In. split; [by apply list_elem_of_In|].
    by rewrite Hs.
Qed.

Lemma generation_retained st name :
  stale name = false →
  Store.generation (retained st) name = Store.generation st name.
Proof.
  intros Hs. induction st as [|g st IH]; simpl; [done|].
  destruct (Store.has_name name g) eqn:E.
  - apply has_name_true in E. rewrite E, Hs. simpl.
    unfold Store.has_name. by rewrite bool_decide_eq_true_2.
  - destruct (stale g.1); simpl; [done|]. by rewrite E.
Qed.

Lemma retained_idempotent st : retained (retained st) = retained st.
Proof.
  unfold retained. rewrite filter_twice. apply filter_ext. intros g.
  by destruct (stale g.1).
Qed.

(** C5. The activate-time sweep deletes exactly the generations whose name
    is neither the current SHELL name nor the current DATA name: whatever
    stale names the store holds, a name is left after the sweep exactly
    when it was there and is one of the two current names, and the two
    current generations keep their content. *)
Theorem activate_sweeps_exactly_stale (w : World) :
  (∀ name, name ∈ Store.names (caches (after on_activate w)) ↔
           name ∈ Store.names (caches w) ∧
           (name = CACHE_NAME ∨ name = DATA_CACHE_NAME)) ∧
  Store.generation (caches (after on_activate w)) CACHE_NAME =
    Store.generation (caches w) CACHE_NAME ∧
  Store.generation (caches (after on_activate w)) DATA_CACHE_NAME =
    Store.generation (caches w) DATA_CACHE_NAME.
Proof.
  rewrite on_activate_after. simpl. split; [|split].
  - intros name. by rewrite names_retained, stale_false.
  - apply generation_retained, stale_false. by left.
  - apply generation_retained, stale_false. by right.
Qed.

(** C6. Running the activate listener twice in succession leaves the store
    (hence its set of generation names) as the first run left it. *)
Theorem activate_idempotent (w : World) :
  after on_activate (after on_activate w) = after on_activate w ∧
  Store.names (caches (after on_activate (after on_activate w))) =
    Store.names (caches (after on_activate w)).
Proof.
  assert (after on_activate (after on_activate w) = after on_activate w) as H.
  { rewrite !on_activate_after. simpl. f_equal.
    - apply retained_idempotent.
    - rewrite <- list_fmap_compose. by apply list_fmap_ext. }
  by rewrite H.
Qed.

(** ** fetch *)

Ltac run_act :=
  unfold result, after, run, mbind, Act_bind, mret, Act_ret, caches_open,
    cache_put, cache_store, cache_match, caches_match, fetch in *;
  simpl in *.

Lemma lookup_open_put name k r st :
  Store.lookup (Store.put name k r (Store.open name st)) name k = Some r.
Proof. apply lookup_put_eq. rewrite generation_open. by eexists. Qed.

(** The state a DATA request leaves, by what the network answered. *)
Lemma on_fetch_data_caches origin net req w :
  is_data req = true →
  caches (after (on_fetch origin net req) w) =
  match net req with
  | Some r =>
      if (status r =? 200) && negb (put_refused r)
      then Store.put DATA_CACHE_NAME (cache_key (url req)) r
             (Store.open DATA_CACHE_NAME (caches w))
      else Store.open DATA_CACHE_NAME (caches w)
  | None => Store.open DATA_CACHE_NAME (caches w)
  end ∧
  net_calls (after (on_fetch origin net req) w) = S (net_calls w).
Proof.
  intros Hd. unfold on_fetch. rewrite Hd. run_act.
  destruct (net req) as [r|]; simpl; [|done].
  destruct (status r =? 200); simpl; [|done].
  by destruct (put_refused r).
Qed.

Lemma on_fetch_data_result origin net req w :
  is_data req = true →
  result (on_fetch origin net req) w =
  match net req with
  | Some r => Some r
  | None => Store.match_cache (caches w) DATA_CACHE_NAME req
  end.
Proof.
  intros Hd. unfold on_fetch. rewrite Hd. run_act.
  destruct (net req) as [r|]; simpl.
  - destruct (status r =? 200); simpl; [|done]. by destruct (put_refused r).
  - apply match_cache_open.
Qed.




(** C2 (fails as stated). With the task list cached under its URL and the
    network down, a POST to that URL gets no response: the cache answers
    GET requests only. *)
Lemma data_offline_post_gets_nothing :
  ¬ (∀ (origin : string) (net : Request → option Response) (req : Request)
       (w : World),
       is_data req = true → net req = None →
       result (on_fetch origin net req) w =
       Store.lookup (caches w) DATA_CACHE_NAME (cache_key (url req))).
Proof.
  intros H.
  specialize (H Examples.origin Examples.offline Examples.api_post
                Examples.tasks_fetched eq_refl eq_refl).
  vm_compute in H. discriminate.
Qed.

(** C2 (amended). For every GET request in the DATA category whose fetch
    fails, the router returns the snapshot stored under the request's URL
    in the DATA generation when there is one (and the request carries no
    header that the snapshot names in [Vary]).  For a request of any
    method, the result is never an entry stored under another URL or in
    another generation, it is no response when nothing is stored under the
    request's URL, and no entry changes. *)
Theorem data_fetch_offline
    (origin : string) (net : Request → option Response) (req : Request)
    (w : World) :
  is_data req = true → net req = None →
  (method req = GET →
   ∀ r, Store.lookup (caches w) DATA_CACHE_NAME (cache_key (url req)) = Some r →
        vary_allows req r = true →
        result (on_fetch origin net req) w = Some r) ∧
  (∀ r, result (on_fetch origin net req) w = Some r →
        Store.lookup (caches w) DATA_CACHE_NAME (cache_key (url req)) = Some r) ∧
  (Store.lookup (caches w) DATA_CACHE_NAME (cache_key (url req)) = None →
   result (on_fetch origin net req) w = None) ∧
  ∀ g k, Store.lookup (caches (after (on_fetch origin net req) w)) g k =
         Store.lookup (caches w) g k.
Proof.
  intros Hd Hn. rewrite on_fetch_data_result, Hn, match_cache_lookup by done.
  split; [|split; [|split]].
  - intros Hm r -> Hv. by rewrite matches_get.
  - intros r. destruct (Store.lookup _ _ _) as [r'|]; [|done].
    destruct (matches req r'); [|done]. by intros [= ->].
  - by intros ->.
  - intros g k. rewrite (proj1 (on_fetch_data_caches origin net req w Hd)), Hn.
    apply lookup_open.
Qed.

Lemma data_fetch_offline_witness :
  result (on_fetch Examples.origin Examples.offline Examples.api_request)
    Examples.tasks_fetched
  = Some Examples.tasks_json.
Proof.
  apply (data_fetch_offline Examples.origin Examples.offline
           Examples.api_request Examples.tasks_fetched eq_refl eq_refl);
    reflexivity.
Defined.

(** C10. In the DATA path a response is written to the cache only when its
    status is exactly 200: with any other status the response is returned
    and no entry of the store changes. *)
Theorem data_fetch_other_status_not_stored
    (origin : string) (net : Request → option Response) (req : Request)
    (w : World) (r : Response) :
  is_data req = true → net req = Some r → status r ≠ 200 →
  result (on_fetch origin net req) w = Some r ∧
  ∀ g k, Store.lookup (caches (after (on_fetch origin net req) w)) g k =
         Store.lookup (caches w) g k.
Proof.
  intros Hd Hn Hs. split.
  - by rewrite on_fetch_data_result, Hn.
  - intros g k. rewrite (proj1 (on_fetch_data_caches origin net req w Hd)), Hn.
    rewrite (proj2 (Z.eqb_neq _ _) Hs). simpl. apply lookup_open.
Qed.

Lemma data_fetch_other_status_not_stored_witness :
  Store.lookup
    (caches (after (on_fetch Examples.origin
                      (Examples.net_of [(url Examples.api_request, Examples.created)])
                      Examples.api_request) Examples.empty_world))
    DATA_CACHE_NAME (cache_key (url Examples.api_request))
  = None.
Proof.
  rewrite (proj2 (data_fetch_other_status_not_stored Examples.origin
                    (Examples.net_of [(url Examples.api_request, Examples.created)])
                    Examples.api_request Examples.empty_world Examples.created
                    eq_refl eq_refl ltac:(vm_compute; discriminate))).
  reflexivity.
Defined.

Lemma match_in_Some c req r :
  Store.match_in c req = Some r ↔
  c !! cache_key (url req) = Some r ∧ matches req r = true.
Proof.
  unfold Store.match_in. destruct (c !! cache_key (url req)) as [r'|]; simpl.
  - destruct (matches req r') eqn:Hm; split.
    + by intros [= ->].
    + by intros [[= ->] _].
    + done.
    + intros [[= ->] Hm']. congruence.
  - split; [done|]. by intros [? _].
Qed.

Lemma match_in_None_key c req :
  c !! cache_key (url req) = None → Store.match_in c req = None.
Proof. unfold Store.match_in. by intros ->. Qed.


(** The search returns the entry of generation [name] when no generation
    of another name holds the key. *)
Lemma match_any_only st name req r :
  (∀ g, g ∈ st → g.1 ≠ name → g.2 !! cache_key (url req) = None) →
  Store.lookup st name (cache_key (url req)) = Some r →
  matches req r = true →
  Store.match_any st req = Some r.
Proof.
  unfold Store.lookup. induction st as [|g st IH]; simpl; [done|].
  intros Hother Hl Hm. destruct (Store.has_name name g) eqn:E; simpl in Hl.
  - by rewrite (proj2 (match_in_Some g.2 req r)).
  - apply has_name_false in E.
    rewrite match_in_None_key
      by (apply Hother; [apply elem_of_cons; by left|done]).
    apply IH; [|done|done]. intros g' Hg'. apply Hother, elem_of_cons. by right.
Qed.

Lemma on_fetch_shell_hit origin net req w r :
  is_data req = false →
  Store.match_any (caches w) req = Some r →
  run (on_fetch origin net req) w = (Some r, w).
Proof. intros Hd Hm. unfold on_fetch. rewrite Hd. run_act. by rewrite Hm. Qed.








(** ** install *)

Lemma fetch_assets_run net urls w :
  result (fetch_assets net urls) w = batch net urls ∧
  caches (after (fetch_assets net urls) w) = caches w ∧
  skip_waiting (after (fetch_assets net urls) w) = skip_waiting w.
Proof.
  revert w. induction urls as [|u urls IH]; intros w; simpl.
  - done.
  - rewrite !result_bind, !after_bind.
    destruct (IH (after (fetch net (Request_of u)) w)) as (Hr & Hc & Hs).
    rewrite Hr. unfold mret, Act_ret, result, after in *. simpl in *.
    by rewrite Hc, Hs.
Qed.

Lemma for_each_put name l w :
  after (for_each (λ e, cache_store name e.1 e.2) l) w =
  set_caches (put_all name l) w.
Proof.
  revert w. induction l as [|e l IH]; intros w; simpl.
  - by destruct w.
  - rewrite after_bind, IH. done.
Qed.

Lemma batch_delivered net urls :
  is_Some (batch net urls) ↔ Forall (delivered net) urls.
Proof.
  induction urls as [|u urls IH]; simpl.
  - split; [constructor|by eexists].
  - rewrite Forall_cons, <- IH. unfold delivered. split.
    + intros [l Hl]. destruct (net (Request_of u)) as [r|]; [|done].
      destruct (batch net urls); [|done].
      destruct (addable r) eqn:Ha; [|done]. split; by eexists.
    + intros [(r & -> & ->) [l ->]]. by eexists.
Qed.

Lemma batch_entries net urls l :
  batch net urls = Some l →
  l.*1 = urls ∧ ∀ e, e ∈ l → net (Request_of e.1) = Some e.2.
Proof.
  revert l. induction urls as [|u urls IH]; simpl; intros l.
  - intros [= <-]. split; [done|]. intros e He. by apply elem_of_nil in He.
  - destruct (net (Request_of u)) as [r|] eqn:Hu; [|done].
    destruct (batch net urls) as [l'|]; [|done].
    destruct (addable r); [|done]. intros [= <-].
    destruct (IH l' eq_refl) as [Hk He]. split; [simpl; by f_equal|].
    intros e [-> | Hin]%elem_of_cons; [done|]. by apply He.
Qed.

Lemma generation_put_all_is_Some name l st :
  is_Some (Store.generation st name) →
  is_Some (Store.generation (put_all name l st) name).
Proof.
  revert st. induction l as [|e l IH]; intros st Hst; simpl; [done|].
  apply IH. rewrite generation_put_same. by apply fmap_is_Some.
Qed.

Lemma lookup_put_all_other name l st g k :
  g ≠ name →
  Store.lookup (put_all name l st) g k = Store.lookup st g k.
Proof.
  intros Hg. revert st. induction l as [|e l IH]; intros st; simpl; [done|].
  rewrite IH. apply lookup_put_ne. by left.
Qed.

Lemma cache_key_idempotent u : cache_key (cache_key u) = cache_key u.
Proof.
  induction u as [|c u IH]; simpl; [done|].
  destruct (decide (c = "#"%char)) as [Hc|Hc].
  - by rewrite bool_decide_eq_true_2.
  - rewrite bool_decide_eq_false_2 by done. simpl.
    rewrite bool_decide_eq_false_2 by done. by rewrite IH.
Qed.

Lemma cache_key_app_key u v :
  cache_key (cache_key u +:+ v) = cache_key u +:+ cache_key v.
Proof.
  induction u as [|c u IH]; simpl; [done|].
  destruct (decide (c = "#"%char)) as [Hc|Hc].
  - by rewrite bool_decide_eq_true_2.
  - rewrite bool_decide_eq_false_2 by done. simpl.
    rewrite bool_decide_eq_false_2 by done. by rewrite IH.
Qed.

(** A path without fragment resolves to a URL without fragment. *)
Lemma resolve_key origin path :
  cache_key path = path →
  cache_key (resolve origin path) = resolve origin path.
Proof. intros Hp. unfold resolve. by rewrite cache_key_app_key, Hp. Qed.

Lemma files_without_fragment a : a ∈ FILES_TO_CACHE → cache_key a = a.
Proof.
  intros Ha. apply list_elem_of_In in Ha. simpl in Ha.
  repeat (destruct Ha as [<- | Ha]; [reflexivity|]). destruct Ha.
Qed.

(** After a batch fetched from [net] is put, each of its URLs holds what
    [net] answered for it. *)
Lemma lookup_put_all net name l st :
  is_Some (Store.generation st name) →
  (∀ e, e ∈ l → cache_key e.1 = e.1 ∧ net (Request_of e.1) = Some e.2) →
  ∀ k r, net (Request_of k) = Some r →
         (k ∈ l.*1 ∨ Store.lookup st name k = Some r) →
         Store.lookup (put_all name l st) name k = Some r.
Proof.
  revert st. induction l as [|e l IH]; intros st Hst Hl k r Hk Hin; simpl.
  - destruct Hin as [Hin|?]; [|done]. by apply elem_of_nil in Hin.
  - apply IH; [|intros e' He'; apply Hl, elem_of_cons; by right|done|].
    { rewrite generation_put_same. by apply fmap_is_Some. }
    destruct (Hl e) as [Hkey He]; [apply elem_of_cons; by left|].
    rewrite Hkey.
    destruct (decide (k = e.1)) as [-> | Hne].
    + right. rewrite lookup_put_eq by done. congruence.
    + destruct Hin as [Hin|Hin].
      * simpl in Hin. apply elem_of_cons in Hin as [?|?]; [done|by left].
      * right. rewrite lookup_put_ne; [done|by right].
Qed.

Lemma cache_addAll_run net name urls w :
  run (cache_addAll net name urls) w =
  match batch net urls with
  | Some l => (true, set_caches (put_all name l)
                       (after (fetch_assets net urls) w))
  | None => (false, after (fetch_assets net urls) w)
  end.
Proof.
  destruct (fetch_assets_run net urls w) as (Hr & _ & _).
  unfold cache_addAll, run, mbind, Act_bind, result, after in *.
  destruct (fetch_assets net urls w) as [got w2]. simpl in *. subst got.
  destruct (batch net urls) as [l|]; [|done].
  pose proof (for_each_put name l w2) as Hp. unfold after in Hp.
  destruct (for_each _ l w2) as [[] w3]. simpl in *. by subst w3.
Qed.

Lemma on_install_run origin net w :
  run (on_install origin net) w =
  match batch net (resolve origin <$> FILES_TO_CACHE) with
  | Some l =>
      (InstallDone,
       after skipWaiting
         (set_caches (put_all CACHE_NAME l)
            (after (fetch_assets net (resolve origin <$> FILES_TO_CACHE))
               (after (caches_open CACHE_NAME) w))))
  | None =>
      (InstallRejected,
       after (fetch_assets net (resolve origin <$> FILES_TO_CACHE))
         (after (caches_open CACHE_NAME) w))
  end.
Proof.
  pose proof (cache_addAll_run net CACHE_NAME
                (resolve origin <$> FILES_TO_CACHE)
                (after (caches_open CACHE_NAME) w)) as H.
  unfold on_install, run, mbind, Act_bind in *.
  change (caches_open CACHE_NAME w) with
    ((), after (caches_open CACHE_NAME) w). cbv beta iota.
  rewrite H. by destruct (batch net _).
Qed.

(** C7. Install is all-or-nothing over the shell-asset list.  If the fetch
    of any asset fails (or its response is one the bulk store refuses) the
    install is rejected: skip-waiting is not signalled, the worker in
    control and its SHELL generation stay as they were, and every entry
    the store held is still served.  The install completes only when every
    asset was delivered; it then holds each asset's response in the SHELL
    generation and has signalled skip-waiting. *)
Theorem install_all_or_nothing
    (origin : string) (net : Request → option Response) (w w' : World)
    (o : InstallOutcome) :
  run (on_install origin net) w = (o, w') →
  ((∃ a, a ∈ FILES_TO_CACHE ∧ ¬ delivered net (resolve origin a)) →
   o = InstallRejected ∧
   skip_waiting w' = skip_waiting w ∧
   (∀ previous, serving previous o = previous) ∧
   (∀ g k, Store.lookup (caches w') g k = Store.lookup (caches w) g k) ∧
   (∀ req, Store.match_any (caches w') req = Store.match_any (caches w) req)) ∧
  (o = InstallDone ↔
   ∀ a, a ∈ FILES_TO_CACHE → delivered net (resolve origin a)) ∧
  (o = InstallDone →
   skip_waiting w' = true ∧
   (∀ previous, serving previous o = Some CACHE_NAME) ∧
   ∀ a r, a ∈ FILES_TO_CACHE → net (Request_of (resolve origin a)) = Some r →
          Store.lookup (caches w') CACHE_NAME (resolve origin a) = Some r).
Proof.
  rewrite on_install_run.
  set (urls := resolve origin <$> FILES_TO_CACHE).
  set (w1 := after (caches_open CACHE_NAME) w).
  destruct (fetch_assets_run net urls w1) as (_ & Hc & Hs).
  set (w2 := after (fetch_assets net urls) w1) in *.
  change (caches w1) with (Store.open CACHE_NAME (caches w)) in Hc.
  change (skip_waiting w1) with (skip_waiting w) in Hs.
  pose proof (batch_delivered net urls) as Hb.
  assert (Forall (delivered net) urls ↔
          ∀ a, a ∈ FILES_TO_CACHE → delivered net (resolve origin a)) as Hall.
  { unfold urls. rewrite Forall_fmap, Forall_forall. done. }
  destruct (batch net urls) as [l|] eqn:El; intros [= <- <-].
  - assert (∀ a, a ∈ FILES_TO_CACHE → delivered net (resolve origin a)) as Hd.
    { apply Hall, Hb. by eexists. }
    split; [|split; [done|]].
    + intros (a & Ha & Hn). destruct Hn. by apply Hd.
    + intros _. split; [done|]. split; [done|]. intros a r Ha Hr.
      change (caches (after skipWaiting (set_caches (put_all CACHE_NAME l) w2)))
        with (put_all CACHE_NAME l (caches w2)).
      rewrite Hc. destruct (batch_entries _ _ _ El) as [Hk He].
      apply (lookup_put_all net); [| |done|].
      * rewrite generation_open. by eexists.
      * intros e Hin. split; [|by apply He].
        assert (e.1 ∈ urls) as Hu
          by (rewrite <- Hk; apply list_elem_of_fmap; by exists e).
        apply list_elem_of_fmap in Hu as (b & -> & Hb').
        by apply resolve_key, files_without_fragment.
      * left. rewrite Hk. unfold urls. apply list_elem_of_fmap. by exists a.
  - split; [|split; [|done]].
    + intros _. split; [done|]. split; [done|]. split; [done|].
      rewrite Hc.
      split; [intros g k; apply lookup_open | intros req; apply match_any_open].
    + split; [done|]. intros Hd. apply Hall, Hb in Hd. by destruct Hd.
Qed.

Lemma install_all_or_nothing_witness :
  result (on_install Examples.origin Examples.bundle_missing)
    (Examples.with_caches Examples.two_shells) = InstallRejected.
Proof.
  eapply (install_all_or_nothing Examples.origin Examples.bundle_missing
            (Examples.with_caches Examples.two_shells)).
  - apply surjective_pairing.
  - exists "/static/js/bundle.js". split.
    + apply list_elem_of_In. simpl. tauto.
    + intros (r & Hr & _). vm_compute in Hr. discriminate.
Defined.

(** ** Reminders *)

Lemma MS_PER_DAY_pos : 0 < MS_PER_DAY.
Proof. done. Qed.

(** [ceil_div a b] is the least integer whose multiple of [b] reaches
    [a]. *)
Lemma ceil_div_spec a b q :
  0 < b → ceil_div a b = q ↔ (q - 1) * b < a ≤ q * b.
Proof.
  intros Hb. unfold ceil_div.
  pose proof (Z.mul_div_le (- a) b Hb).
  pose proof (Z.mul_succ_div_gt (- a) b Hb).
  split.
  - intros <-. nia.
  - intros [H1 H2]. nia.
Qed.

Lemma daysDiff_spec due now q :
  daysDiff due now = q ↔
  (q - 1) * MS_PER_DAY < due - now ≤ q * MS_PER_DAY.
Proof. apply ceil_div_spec, MS_PER_DAY_pos. Qed.

Lemma after_showNotification n w :
  shown (after (showNotification n) w) = shown w ++ [n] ∧
  caches (after (showNotification n) w) = caches w.
Proof. done. Qed.

(** One step of the reminder loop. *)
Lemma remind_after Date_parse now task w :
  shown (after (remind Date_parse now task) w) =
    shown w ++ option_list (notice Date_parse now task) ∧
  caches (after (remind Date_parse now task) w) = caches w.
Proof.
  unfold remind, notice. destruct (dueDate task) as [d|]; simpl.
  2: { by rewrite app_nil_r. }
  destruct (truthy d); simpl.
  2: { by rewrite app_nil_r. }
  destruct (Date_parse d) as [due|]; simpl.
  2: { by rewrite app_nil_r. }
  destruct ((daysDiff due now <=? 0) && negb (completed task)); simpl.
  - done.
  - by rewrite app_nil_r.
Qed.

(** The reminder loop over a list of tasks. *)
Lemma remind_all Date_parse now l w :
  shown (after (for_each (remind Date_parse now) l) w) =
    shown w ++ omap (notice Date_parse now) l ∧
  caches (after (for_each (remind Date_parse now) l) w) = caches w.
Proof.
  revert w. induction l as [|t l IH]; intros w; simpl.
  - split; [by rewrite app_nil_r|done].
  - rewrite after_bind.
    destruct (IH (after (remind Date_parse now t) w)) as [-> ->].
    destruct (remind_after Date_parse now t w) as [-> ->].
    split; [|done]. rewrite <- app_assoc. f_equal.
    by destruct (notice Date_parse now t).
Qed.

(** C8 (fails as stated). At 2024-01-10T00:00 a task due at 23:59 the same
    day has a day difference of 1, not 0, and raises no notification. *)
Lemma due_later_today_is_day_one :
  daysDiff (Platform.utc_ms 2024 1 10 23 59) (Platform.utc_ms 2024 1 10 0 0) ≠ 0 ∧
  shown (after (remind Platform.Date_parse (Platform.utc_ms 2024 1 10 0 0)
                  (Examples.due_at "2024-01-10T23:59"))
           Examples.empty_world) = [].
Proof. split; [by vm_compute|by vm_compute]. Qed.

(** C8 (amended). The reminder pass divides the millisecond difference
    between due date and now by one day and rounds up, and raises a
    notification exactly when that difference is at most 0 and the task is
    not completed.  With now = 2024-01-10T00:00: due 2024-01-10T23:59
    gives 1 and no notification; due 2024-01-09 gives -1, worded overdue;
    due 2024-01-12 gives 2 and no notification. *)
Theorem reminder_day_difference
    (Date_parse : string → option Z) (now due : Z) (task : Task) (d : string)
    (w : World) :
  dueDate task = Some d → truthy d = true → Date_parse d = Some due →
  ((daysDiff due now - 1) * MS_PER_DAY < due - now ≤ daysDiff due now * MS_PER_DAY) ∧
  (daysDiff due now ≤ 0 → completed task = false →
   shown (after (remind Date_parse now task) w) =
     shown w ++ [reminder task (daysDiff due now)]) ∧
  (0 < daysDiff due now ∨ completed task = true →
   shown (after (remind Date_parse now task) w) = shown w) ∧
  (now = Platform.utc_ms 2024 1 10 0 0 →
   (due = Platform.utc_ms 2024 1 10 23 59 →
    daysDiff due now = 1 ∧
    shown (after (remind Date_parse now task) w) = shown w) ∧
   (due = Platform.utc_ms 2024 1 9 0 0 →
    daysDiff due now = -1 ∧ due_label (daysDiff due now) = "overdue" ∧
    (completed task = false →
     shown (after (remind Date_parse now task) w) =
       shown w ++ [reminder task (-1)])) ∧
   (due = Platform.utc_ms 2024 1 12 0 0 →
    daysDiff due now = 2 ∧
    shown (after (remind Date_parse now task) w) = shown w)).
Proof.
  intros Hd Ht Hp.
  assert (shown (after (remind Date_parse now task) w) =
          shown w ++ (if (daysDiff due now <=? 0) && negb (completed task)
                      then [reminder task (daysDiff due now)] else [])) as Hshown.
  { rewrite (proj1 (remind_after Date_parse now task w)).
    unfold notice. rewrite Hd. simpl. rewrite Ht, Hp. simpl.
    by destruct ((daysDiff due now <=? 0) && negb (completed task)). }
  assert (∀ q, 0 < q → daysDiff due now = q →
               shown (after (remind Date_parse now task) w) = shown w) as Hnone.
  { intros q Hq Hdays. rewrite Hshown, Hdays.
    rewrite (proj2 (Z.leb_gt q 0)) by done. simpl. apply app_nil_r. }
  split; [by apply daysDiff_spec|]. split; [|split].
  - intros Hle Hc. rewrite Hshown, Hc.
    by rewrite (proj2 (Z.leb_le _ _) Hle).
  - intros [Hpos|Hc]; rewrite Hshown.
    + rewrite (proj2 (Z.leb_gt _ _)) by done. simpl. apply app_nil_r.
    + rewrite Hc, andb_false_r. apply app_nil_r.
  - intros ->. split; [|split]; intros ->.
    + split; [done|]. by apply (Hnone 1).
    + split; [done|]. split; [done|]. intros Hc. by rewrite Hshown, Hc.
    + split; [done|]. by apply (Hnone 2).
Qed.

Lemma reminder_day_difference_witness :
  shown (after (remind Platform.Date_parse (Platform.utc_ms 2024 1 10 0 0)
                  (Examples.due_at "2024-01-09")) Examples.empty_world)
  = [reminder (Examples.due_at "2024-01-09") (-1)].
Proof.
  apply (reminder_day_difference Platform.Date_parse
           (Platform.utc_ms 2024 1 10 0 0) (Platform.utc_ms 2024 1 9 0 0)
           (Examples.due_at "2024-01-09") "2024-01-09" Examples.empty_world);
    by vm_compute.
Defined.

(** ** message and periodicsync *)

Lemma on_message_snapshot_caches origin JSON_stringify tasks w :
  caches (after (on_message origin JSON_stringify (MsgCacheTaskData tasks)) w) =
  Store.put DATA_CACHE_NAME (resolve origin "/tasks-data")
    (new_Response (JSON_stringify tasks))
    (Store.open DATA_CACHE_NAME (caches w)) ∧
  shown (after (on_message origin JSON_stringify (MsgCacheTaskData tasks)) w) =
  shown w.
Proof.
  split; [|done].
  rewrite <- (resolve_key origin "/tasks-data" eq_refl) at 1. done.
Qed.

(** The stored snapshot is found by the pass's lookup. *)
Lemma match_snapshot st origin body :
  Store.lookup st DATA_CACHE_NAME (resolve origin "/tasks-data")
    = Some (new_Response body) →
  Store.match_cache st DATA_CACHE_NAME
    (Request_of (resolve origin "/tasks-data")) = Some (new_Response body).
Proof.
  intros Hl. rewrite match_cache_lookup. simpl.
  by rewrite (resolve_key origin "/tasks-data" eq_refl), Hl.
Qed.

(** The reminder pass, by what the DATA generation holds under
    [/tasks-data]. *)
Lemma checkTaskReminders_shown origin Date_parse JSON_parse now w :
  shown (after (checkTaskReminders origin Date_parse JSON_parse now) w) =
  shown w ++
  match Store.match_cache (caches w) DATA_CACHE_NAME
          (Request_of (resolve origin "/tasks-data")) with
  | Some r =>
      match JSON_parse (body r) with
      | Some tasks => omap (notice Date_parse now) (concat tasks.*2)
      | None => []
      end
  | None => []
  end.
Proof.
  unfold checkTaskReminders. rewrite after_bind, after_bind.
  change (after (cache_match ?n ?k) ?x) with x.
  change (result (cache_match ?n ?k) ?x) with (Store.match_cache (caches x) n k).
  change (caches (after (caches_open ?n) ?x)) with (Store.open n (caches x)).
  rewrite match_cache_open.
  destruct (Store.match_cache (caches w) _ _) as [r|]; [|by rewrite app_nil_r].
  destruct (JSON_parse (body r)) as [tasks|]; [|by rewrite app_nil_r].
  by rewrite (proj1 (remind_all _ _ _ _)).
Qed.

Lemma omap_one {A B} (f : A → option B) (x : A) :
  omap f [x] = option_list (f x).
Proof. simpl. by destruct (f x). Qed.

Lemma notice_due Date_parse now task d due :
  dueDate task = Some d → truthy d = true → Date_parse d = Some due →
  notice Date_parse now task =
  if (daysDiff due now <=? 0) && negb (completed task)
  then Some (reminder task (daysDiff due now)) else None.
Proof. intros Hd Ht Hp. unfold notice. rewrite Hd. simpl. by rewrite Ht, Hp. Qed.

Lemma january_first_on_fifth now :
  Platform.utc_ms 2024 1 5 0 0 ≤ now < Platform.utc_ms 2024 1 6 0 0 →
  daysDiff (Platform.utc_ms 2024 1 1 0 0) now = -4.
Proof.
  intros Hnow. apply daysDiff_spec.
  change (Platform.utc_ms 2024 1 5 0 0) with 1704412800000 in Hnow.
  change (Platform.utc_ms 2024 1 6 0 0) with 1704499200000 in Hnow.
  change (Platform.utc_ms 2024 1 1 0 0) with 1704067200000.
  change MS_PER_DAY with 86400000.
  lia.
Qed.

(** C9. A CACHE_TASK_DATA message overwrites the one entry [/tasks-data]
    of the DATA generation with the new snapshot, whatever was stored
    before, and changes no other entry.  After the message with the
    snapshot [{work: [{id:1, text:"x", dueDate:"2024-01-01",
    completed:false}]}], a periodic trigger on 2024-01-05 raises exactly
    one notification, with tag [task-1]. *)
Theorem cache_task_data_replaces_snapshot
    (origin : string) (Date_parse : string → option Z)
    (JSON_stringify : Snapshot → string) (JSON_parse : string → option Snapshot)
    (w : World) (tasks : Snapshot) (now : Z) :
  JSON_parse (JSON_stringify Examples.one_task) = Some Examples.one_task →
  Date_parse "2024-01-01" = Some (Platform.utc_ms 2024 1 1 0 0) →
  Platform.utc_ms 2024 1 5 0 0 ≤ now < Platform.utc_ms 2024 1 6 0 0 →
  Store.lookup
    (caches (after (on_message origin JSON_stringify (MsgCacheTaskData tasks)) w))
    DATA_CACHE_NAME (resolve origin "/tasks-data")
  = Some (new_Response (JSON_stringify tasks)) ∧
  (∀ g k, g ≠ DATA_CACHE_NAME ∨ k ≠ resolve origin "/tasks-data" →
     Store.lookup
       (caches (after (on_message origin JSON_stringify (MsgCacheTaskData tasks)) w))
       g k
     = Store.lookup (caches w) g k) ∧
  ∃ n,
    shown (after (on_periodicsync origin Date_parse JSON_parse "task-reminders" now)
             (after (on_message origin JSON_stringify
                       (MsgCacheTaskData Examples.one_task)) w))
    = shown w ++ [n] ∧
    n_tag n = Some "task-1" ∧
    n = reminder Examples.task1 (-4).
Proof.
  intros Hjson Hdate Hnow.
  split; [|split].
  - rewrite (proj1 (on_message_snapshot_caches _ _ _ _)).
    apply lookup_open_put.
  - intros g k Hne. rewrite (proj1 (on_message_snapshot_caches _ _ _ _)).
    rewrite lookup_put_ne by done. apply lookup_open.
  - exists (reminder Examples.task1 (-4)). split; [|done].
    unfold on_periodicsync. rewrite bool_decide_eq_true_2 by done.
    rewrite checkTaskReminders_shown.
    destruct (on_message_snapshot_caches origin JSON_stringify
                Examples.one_task w) as [-> ->].
    rewrite (match_snapshot _ origin _ (lookup_open_put _ _ _ _)).
    change (body (new_Response ?x)) with x. cbv beta iota. rewrite Hjson.
    change (concat Examples.one_task.*2) with [Examples.task1].
    rewrite omap_one.
    rewrite (notice_due Date_parse now Examples.task1 "2024-01-01" _
               eq_refl eq_refl Hdate).
    by rewrite (january_first_on_fifth now Hnow).
Qed.

Lemma cache_task_data_replaces_snapshot_witness :
  ∃ n,
    shown (after (on_periodicsync Examples.origin Platform.Date_parse
                    Platform.JSON_parse "task-reminders"
                    (Platform.utc_ms 2024 1 5 0 0))
             (after (on_message Examples.origin Platform.JSON_stringify
                       (MsgCacheTaskData Examples.one_task))
                Examples.empty_world))
    = shown Examples.empty_world ++ [n] ∧
    n_tag n = Some "task-1" ∧
    n = reminder Examples.task1 (-4).
Proof.
  apply (cache_task_data_replaces_snapshot Examples.origin Platform.Date_parse
           Platform.JSON_stringify Platform.JSON_parse Examples.empty_world
           Examples.one_task (Platform.utc_ms 2024 1 5 0 0)).
  - by vm_compute.
  - by vm_compute.
  - by vm_compute.
Defined.

(** * Further properties of the listeners *)

(** ** Request classification *)

Lemma prefix_app (p s : string) :
  String.prefix p s = true ↔ ∃ post, s = p +:+ post.
Proof.
  revert s. induction p as [|a p IH]; intros s.
  - split; [by exists s|by destruct s].
  - destruct s as [|b s]; simpl.
    + split; [done|]. by intros [post ?].
    + destruct (Ascii.ascii_dec a b) as [-> | Hab].
      * rewrite IH. split; intros [post Hp]; exists post.
        -- by rewrite Hp.
        -- by injection Hp.
      * split; [done|]. intros [post Hp]. injection Hp. done.
Qed.

Lemma includes_spec (needle hay : string) :
  includes needle hay = true ↔ ∃ pre post, hay = pre +:+ needle +:+ post.
Proof.
  induction hay as [|c hay IH].
  - change (includes needle EmptyString) with
      (String.prefix needle EmptyString || false).
    rewrite orb_false_r, prefix_app. split.
    + intros [post Hp]. by exists EmptyString, post.
    + intros (pre & post & Hp). exists post.
      destruct pre; [done|discriminate].
  - change (includes needle (String c hay)) with
      (String.prefix needle (String c hay) || includes needle hay).
    rewrite orb_true_iff, prefix_app, IH. split.
    + intros [[post Hp] | (pre & post & Hp)].
      * by exists EmptyString, post.
      * exists (String c pre), post. simpl. by rewrite Hp.
    + intros (pre & post & Hp). destruct pre as [|c' pre]; simpl in Hp.
      * left. by exists post.
      * right. injection Hp as _ Hp. by exists pre, post.
Qed.

(** X1. A request is in the DATA category exactly when [/api/] occurs
    somewhere in its URL, at any position. *)
Theorem is_data_iff_substring (req : Request) :
  is_data req = true ↔ ∃ pre post, url req = pre +:+ "/api/" +:+ post.
Proof. apply includes_spec. Qed.

(** ** The two routes *)

(** X2. The SHELL route never writes to the cache storage and calls the
    network at most once; on a miss answered by the network the response
    is passed on whatever its status, and is not cached. *)
Theorem shell_fetch_never_caches
    (origin : string) (net : Request → option Response) (req : Request)
    (w : World) :
  is_data req = false →
  caches (after (on_fetch origin net req) w) = caches w ∧
  (net_calls (after (on_fetch origin net req) w) = net_calls w ∨
   net_calls (after (on_fetch origin net req) w) = S (net_calls w)) ∧
  ∀ r, Store.match_any (caches w) req = None →
       net req = Some r →
       result (on_fetch origin net req) w = Some r ∧
       net_calls (after (on_fetch origin net req) w) = S (net_calls w).
Proof.
  intros Hd. unfold on_fetch. rewrite Hd. run_act.
  destruct (Store.match_any (caches w) req) as [hit|] eqn:Hm; simpl.
  - split; [done|]. split; [by left|]. done.
  - destruct (net req) as [r|] eqn:Hn; simpl.
    + split; [done|]. split; [by right|]. by intros r' _ [= <-].
    + destruct (bool_decide (mode req = navigate)); simpl;
        (split; [done|]; split; [by right|done]).
Qed.

Lemma shell_fetch_never_caches_witness :
  caches (after (on_fetch Examples.origin
                   (Examples.net_of [(url Examples.image_request,
                                      Examples.not_found)])
                   Examples.image_request)
            (Examples.with_caches Examples.shell_only))
  = Examples.shell_only.
Proof.
  apply (shell_fetch_never_caches Examples.origin
           (Examples.net_of [(url Examples.image_request, Examples.not_found)])
           Examples.image_request (Examples.with_caches Examples.shell_only)).
  reflexivity.
Defined.

(** X3. The DATA route is network first: it calls the network exactly
    once even when the entry is cached, passes on whatever the network
    answered, and changes no entry other than the one of the request's URL
    in the DATA generation. *)
Theorem data_fetch_network_first
    (origin : string) (net : Request → option Response) (req : Request)
    (w : World) :
  is_data req = true →
  net_calls (after (on_fetch origin net req) w) = S (net_calls w) ∧
  (∀ r, net req = Some r → result (on_fetch origin net req) w = Some r) ∧
  ∀ g k, g ≠ DATA_CACHE_NAME ∨ k ≠ cache_key (url req) →
         Store.lookup (caches (after (on_fetch origin net req) w)) g k =
         Store.lookup (caches w) g k.
Proof.
  intros Hd. destruct (on_fetch_data_caches origin net req w Hd) as [Hc Hn].
  split; [done|]. split.
  - intros r Hr. by rewrite on_fetch_data_result, Hr.
  - intros g k Hne. rewrite Hc. destruct (net req) as [r|]; [|apply lookup_open].
    destruct ((status r =? 200) && negb (put_refused r)); [|apply lookup_open].
    rewrite lookup_put_ne by done. apply lookup_open.
Qed.

Lemma data_fetch_network_first_witness :
  net_calls (after (on_fetch Examples.origin Examples.offline
                      Examples.api_request) Examples.tasks_fetched)
  = S (net_calls Examples.tasks_fetched).
Proof.
  apply (data_fetch_network_first Examples.origin Examples.offline
           Examples.api_request). reflexivity.
Defined.

(** ** Routes after install *)

Lemma elem_of_open name st g :
  g ∈ Store.open name st → g.1 ≠ name → g ∈ st.
Proof.
  intros Hg Hne. induction st as [|x st IH]; simpl in Hg.
  - apply list_elem_of_singleton in Hg. by subst g.
  - destruct (Store.has_name name x).
    + done.
    + apply elem_of_cons in Hg as [-> | Hg]; [by left|].
      right. by apply IH.
Qed.

Lemma elem_of_put name k r st g :
  g ∈ Store.put name k r st → g.1 ≠ name → g ∈ st.
Proof.
  intros Hg Hne. induction st as [|x st IH]; simpl in Hg; [done|].
  destruct (Store.has_name name x) eqn:E.
  - apply has_name_true in E.
    apply elem_of_cons in Hg as [-> | Hg]; [done|by right].
  - apply elem_of_cons in Hg as [-> | Hg]; [by left|].
    right. by apply IH.
Qed.

Lemma elem_of_put_all name l st g :
  g ∈ put_all name l st → g.1 ≠ name → g ∈ st.
Proof.
  revert st. induction l as [|e l IH]; intros st Hg Hne; simpl in Hg; [done|].
  apply IH in Hg; [|done]. by apply elem_of_put in Hg.
Qed.

(** What a completed install leaves in the store. *)
Lemma on_install_done_caches origin net w w' :
  run (on_install origin net) w = (InstallDone, w') →
  ∃ l, batch net (resolve origin <$> FILES_TO_CACHE) = Some l ∧
       caches w' = put_all CACHE_NAME l (Store.open CACHE_NAME (caches w)).
Proof.
  rewrite on_install_run.
  set (urls := resolve origin <$> FILES_TO_CACHE).
  set (w1 := after (caches_open CACHE_NAME) w).
  destruct (fetch_assets_run net urls w1) as (_ & Hc & _).
  set (w2 := after (fetch_assets net urls) w1) in *.
  change (caches w1) with (Store.open CACHE_NAME (caches w)) in Hc.
  destruct (batch net urls) as [l|]; intros [= <-]. exists l.
  split; [done|].
  change (caches (after skipWaiting (set_caches (put_all CACHE_NAME l) w2)))
    with (put_all CACHE_NAME l (caches w2)).
  by rewrite Hc.
Qed.

Lemma on_install_done_run origin net w :
  is_Some (batch net (resolve origin <$> FILES_TO_CACHE)) →
  run (on_install origin net) w = (InstallDone, after (on_install origin net) w).
Proof.
  intros [l Hl]. unfold after. fold (run (on_install origin net) w).
  rewrite on_install_run, Hl. done.
Qed.

Lemma addable_no_wildcard r : addable r = true → "*" ∉ vary r.
Proof.
  unfold addable. rewrite !andb_true_iff, !negb_true_iff, bool_decide_eq_false.
  by intros [_ ?].
Qed.

(** An asset of a completed install is in the SHELL generation, in a form
    a request made of its URL finds. *)
Lemma on_install_done_lookup origin net w w' a r :
  run (on_install origin net) w = (InstallDone, w') →
  a ∈ FILES_TO_CACHE → net (Request_of (resolve origin a)) = Some r →
  Store.lookup (caches w') CACHE_NAME (resolve origin a) = Some r ∧
  "*" ∉ vary r.
Proof.
  intros Hrun Ha Hr.
  destruct (on_install_done_caches _ _ _ _ Hrun) as (l & Hb & ->).
  destruct (batch_entries _ _ _ Hb) as [Hk He]. split.
  - apply (lookup_put_all net); [| |done|].
    + rewrite generation_open. by eexists.
    + intros e Hin. split; [|by apply He].
      assert (e.1 ∈ resolve origin <$> FILES_TO_CACHE) as Hu
        by (rewrite <- Hk; apply list_elem_of_fmap; by exists e).
      apply list_elem_of_fmap in Hu as (b & -> & Hb').
      by apply resolve_key, files_without_fragment.
    + left. rewrite Hk. apply list_elem_of_fmap. by exists a.
  - assert (is_Some (batch net (resolve origin <$> FILES_TO_CACHE))) as Hall
      by (by eexists).
    apply batch_delivered in Hall.
    rewrite Forall_fmap, Forall_forall in Hall.
    destruct (Hall a Ha) as (r' & Hr' & Hadd). simpl in Hr'.
    apply addable_no_wildcard. congruence.
Qed.

Lemma installed_only_shell_holds origin net w w' k :
  run (on_install origin net) w = (InstallDone, w') →
  (∀ g, g ∈ caches w → g.1 ≠ CACHE_NAME → g.2 !! k = None) →
  ∀ g, g ∈ caches w' → g.1 ≠ CACHE_NAME → g.2 !! k = None.
Proof.
  intros Hrun Hother g Hg Hne.
  destruct (on_install_done_caches _ _ _ _ Hrun) as (l & _ & Hl).
  rewrite Hl in Hg. apply Hother; [|done].
  apply (elem_of_open CACHE_NAME); [|done].
  by apply (elem_of_put_all CACHE_NAME l).
Qed.

(** X5. After a completed install, a GET request for a shell asset, not
    in the DATA category and carrying no header that the asset's response
    names in [Vary], is served from the cache with the response the
    install fetched, without a network call and whatever the network would
    answer, provided no generation of another name holds that URL. *)
Theorem installed_asset_served_offline
    (origin : string) (net net' : Request → option Response) (w w' : World)
    (a : string) (r : Response) (req : Request) :
  run (on_install origin net) w = (InstallDone, w') →
  a ∈ FILES_TO_CACHE →
  net (Request_of (resolve origin a)) = Some r →
  url req = resolve origin a → method req = GET →
  vary_allows req r = true →
  is_data req = false →
  (∀ g, g ∈ caches w → g.1 ≠ CACHE_NAME → g.2 !! resolve origin a = None) →
  result (on_fetch origin net' req) w' = Some r ∧
  net_calls (after (on_fetch origin net' req) w') = net_calls w'.
Proof.
  intros Hrun Ha Hr Hu Hm Hv Hd Hother.
  destruct (on_install_done_lookup _ _ _ _ _ _ Hrun Ha Hr) as [Hstored _].
  assert (cache_key (url req) = resolve origin a) as Hkey
    by (rewrite Hu; by apply resolve_key, files_without_fragment).
  assert (Store.match_any (caches w') req = Some r) as Hfirst.
  { apply (match_any_only _ CACHE_NAME); rewrite ?Hkey; [|done|].
    - by apply (installed_only_shell_holds origin net w w').
    - by apply matches_get. }
  by destruct (run_result_after _ _ _ _
                 (on_fetch_shell_hit origin net' req w' r Hd Hfirst))
    as [-> ->].
Qed.

Lemma installed_asset_served_offline_witness :
  result (on_fetch Examples.origin Examples.offline
            {| url := resolve Examples.origin "/manifest.json"; method := GET;
               mode := cors; headers := [("accept", "application/json")] |})
    (after (on_install Examples.origin Examples.all_assets) Examples.empty_world)
  = Some (Examples.asset "/manifest.json").
Proof.
  apply (installed_asset_served_offline Examples.origin Examples.all_assets
           Examples.offline Examples.empty_world
           (after (on_install Examples.origin Examples.all_assets)
              Examples.empty_world)
           "/manifest.json" (Examples.asset "/manifest.json")).
  - apply on_install_done_run. vm_compute. by eexists.
  - apply list_elem_of_In. simpl. tauto.
  - by vm_compute.
  - reflexivity.
  - reflexivity.
  - by vm_compute.
  - by vm_compute.
  - intros g Hg. by apply elem_of_nil in Hg.
Defined.



(** ** Invariants over sequences of events *)

Lemma after_then_ret {A} (m : Act A) w : after (m;; mret ()) w = after m w.
Proof. by rewrite after_bind. Qed.

Lemma for_each_caches {A} (f : A → Act unit) l w :
  (∀ x w', caches (after (f x) w') = caches w') →
  caches (after (for_each f l) w) = caches w.
Proof.
  intros Hf. revert w. induction l as [|x l IH]; intros w; simpl; [done|].
  by rewrite after_bind, IH, Hf.
Qed.

Lemma focus_or_open_caches clientList w :
  caches (after (focus_or_open clientList) w) = caches w.
Proof.
  induction clientList as [|c l IH]; simpl; [done|].
  by destruct (bool_decide (client_url c.2 = "/")).
Qed.

Lemma names_cons g st : Store.names (g :: st) = g.1 :: Store.names st.
Proof. done. Qed.

Lemma names_open name st :
  Store.names (Store.open name st) =
  if bool_decide (name ∈ Store.names st) then Store.names st
  else Store.names st ++ [name].
Proof.
  induction st as [|g st IH].
  - by rewrite bool_decide_eq_false_2 by apply not_elem_of_nil.
  - cbn [Store.open]. rewrite names_cons.
    destruct (Store.has_name name g) eqn:E.
    + apply has_name_true in E. rewrite bool_decide_eq_true_2; [done|].
      rewrite <- E. apply elem_of_cons. by left.
    + apply has_name_false in E. rewrite names_cons, IH.
      destruct (decide (name ∈ Store.names st)) as [Hin|Hout].
      * rewrite !bool_decide_eq_true_2; [done|by right|done].
      * rewrite !bool_decide_eq_false_2; [done| |done].
        intros [?|?]%elem_of_cons; [|done]. by destruct E.
Qed.

Lemma put_all_steps (writable : string → Prop) name l st :
  writable name → rtc (store_step writable) st (put_all name l st).
Proof.
  intros Hw. revert st. induction l as [|e l IH]; intros st; simpl.
  - apply rtc_refl.
  - eapply rtc_l; [|apply IH]. by apply step_put.
Qed.

Lemma current_cache_name : stale CACHE_NAME = false.
Proof. done. Qed.

Lemma current_data_cache_name : stale DATA_CACHE_NAME = false.
Proof. done. Qed.

(** Every listener changes the store by opening a current cache, putting
    entries (in the SHELL generation only on install) and sweeping. *)
Lemma dispatch_steps (writable : string → Prop)
    origin Date_parse JSON_stringify JSON_parse e w :
  writable DATA_CACHE_NAME →
  (is_install e = true → writable CACHE_NAME) →
  rtc (store_step writable) (caches w)
    (caches (after (dispatch origin Date_parse JSON_stringify JSON_parse e) w)).
Proof.
  intros Hdata Hshell.
  destruct e as [net| |net req|tag|payload now|act|data|tag now];
    cbn [dispatch].
  - rewrite after_then_ret.
    destruct (run (on_install origin net) w) as [o w'] eqn:Hrun.
    destruct (run_result_after _ _ _ _ Hrun) as [_ ->].
    rewrite on_install_run in Hrun.
    set (urls := resolve origin <$> FILES_TO_CACHE) in *.
    set (w1 := after (caches_open CACHE_NAME) w) in *.
    destruct (fetch_assets_run net urls w1) as (_ & Hc & _).
    set (w2 := after (fetch_assets net urls) w1) in *.
    change (caches w1) with (Store.open CACHE_NAME (caches w)) in Hc.
    eapply rtc_l; [apply (step_open _ _ CACHE_NAME current_cache_name)|].
    destruct (batch net urls) as [l|]; injection Hrun as _ <-.
    + change (caches (after skipWaiting (set_caches (put_all CACHE_NAME l) w2)))
        with (put_all CACHE_NAME l (caches w2)).
      rewrite Hc. apply put_all_steps. by apply Hshell.
    + rewrite Hc. apply rtc_refl.
  - rewrite on_activate_after. simpl. apply rtc_once, step_sweep.
  - rewrite after_then_ret. destruct (is_data req) eqn:Hd.
    + rewrite (proj1 (on_fetch_data_caches origin net req w Hd)).
      eapply rtc_l;
        [apply (step_open _ _ DATA_CACHE_NAME current_data_cache_name)|].
      destruct (net req) as [r|]; [|apply rtc_refl].
      destruct ((status r =? 200) && negb (put_refused r)); [|apply rtc_refl].
      apply rtc_once. by apply step_put.
    + unfold on_fetch. rewrite Hd. run_act.
      destruct (Store.match_any (caches w) req); simpl; [apply rtc_refl|].
      destruct (net req); simpl; [apply rtc_refl|].
      destruct (bool_decide (mode req = navigate)); apply rtc_refl.
  - unfold on_sync. destruct (bool_decide (tag = "background-sync-tasks"));
      [|apply rtc_refl].
    unfold syncTasks. rewrite after_bind.
    rewrite for_each_caches by done. apply rtc_refl.
  - apply rtc_refl.
  - unfold on_notificationclick. rewrite after_bind.
    destruct (bool_decide (act = "view-tasks")); [|apply rtc_refl].
    rewrite after_bind, focus_or_open_caches. apply rtc_refl.
  - destruct data as [|tasks|]; [apply rtc_refl| |apply rtc_refl].
    rewrite (proj1 (on_message_snapshot_caches _ _ _ _)).
    eapply rtc_l;
      [apply (step_open _ _ DATA_CACHE_NAME current_data_cache_name)|].
    apply rtc_once. by apply step_put.
  - unfold on_periodicsync. destruct (bool_decide (tag = "task-reminders"));
      [|apply rtc_refl].
    unfold checkTaskReminders. rewrite after_bind, after_bind.
    change (after (cache_match ?n ?k) ?x) with x.
    destruct (result (cache_match _ _) _) as [r|].
    2: { apply rtc_once, (step_open _ _ DATA_CACHE_NAME current_data_cache_name). }
    destruct (JSON_parse (body r)) as [tasks|].
    2: { apply rtc_once, (step_open _ _ DATA_CACHE_NAME current_data_cache_name). }
    rewrite (proj2 (remind_all _ _ _ _)).
    apply rtc_once, (step_open _ _ DATA_CACHE_NAME current_data_cache_name).
Qed.

Lemma dispatch_all_steps (writable : string → Prop)
    origin Date_parse JSON_stringify JSON_parse events w :
  writable DATA_CACHE_NAME →
  Forall (λ e, is_install e = true → writable CACHE_NAME) events →
  rtc (store_step writable) (caches w)
    (caches (after (dispatch_all origin Date_parse JSON_stringify JSON_parse
                      events) w)).
Proof.
  intros Hdata Hev. revert w. induction Hev as [|e events He _ IH]; intros w.
  - apply rtc_refl.
  - unfold dispatch_all. simpl. rewrite after_bind.
    eapply rtc_trans; [by apply dispatch_steps|]. apply IH.
Qed.

Lemma step_names writable st st' name :
  store_step writable st st' →
  name ∈ Store.names st' → name ∈ Store.names st ∨ stale name = false.
Proof.
  intros [n Hn|n k r _|].
  - rewrite names_open. destruct (bool_decide (n ∈ Store.names st)); [by left|].
    intros [?|Hin]%elem_of_app; [by left|].
    apply list_elem_of_singleton in Hin. subst. by right.
  - rewrite names_put. by left.
  - intros [? _]%names_retained. by left.
Qed.

Lemma nodup_names_retained st :
  NoDup (Store.names st) → NoDup (Store.names (retained st)).
Proof.
  unfold Store.names. induction st as [|g st IH]; simpl; [done|].
  intros [Hg Hst]%NoDup_cons. destruct (stale g.1); simpl; [by apply IH|].
  apply NoDup_cons. split; [|by apply IH].
  intros Hin. apply Hg. by apply (names_retained st g.1) in Hin as [? _].
Qed.

Lemma step_nodup writable st st' :
  store_step writable st st' →
  NoDup (Store.names st) → NoDup (Store.names st').
Proof.
  intros [n Hn|n k r _|] Hnd.
  - rewrite names_open. destruct (decide (n ∈ Store.names st)) as [Hin|Hout].
    + by rewrite bool_decide_eq_true_2.
    + rewrite bool_decide_eq_false_2 by done.
      apply NoDup_app. split; [done|]. split; [|apply NoDup_singleton].
      intros x Hx Hx'. apply list_elem_of_singleton in Hx'. by subst.
  - by rewrite names_put.
  - by apply nodup_names_retained.
Qed.

Lemma step_shell_kept st st' k :
  store_step (λ name, name ≠ CACHE_NAME) st st' →
  Store.lookup st' CACHE_NAME k = Store.lookup st CACHE_NAME k.
Proof.
  intros [n Hn|n k' r Hw|].
  - apply lookup_open.
  - apply lookup_put_ne. left. intros Heq. by apply Hw.
  - unfold Store.lookup. by rewrite generation_retained.
Qed.

(** X7. Whatever events the worker handles, it creates caches under the
    two current names only, and it never leaves two caches of one name. *)
Theorem store_names_invariant
    (origin : string) (Date_parse : string → option Z)
    (JSON_stringify : Snapshot → string) (JSON_parse : string → option Snapshot)
    (events : list Event) (w : World) :
  (∀ name,
     name ∈ Store.names
       (caches (after (dispatch_all origin Date_parse JSON_stringify JSON_parse
                         events) w)) →
     name ∈ Store.names (caches w) ∨
     name = CACHE_NAME ∨ name = DATA_CACHE_NAME) ∧
  (NoDup (Store.names (caches w)) →
   NoDup (Store.names
            (caches (after (dispatch_all origin Date_parse JSON_stringify
                              JSON_parse events) w)))).
Proof.
  pose proof (dispatch_all_steps (λ _, True) origin Date_parse JSON_stringify
                JSON_parse events w I) as Hsteps.
  assert (Forall (λ e, is_install e = true → True) events) as Hall
    by (apply Forall_forall; done).
  specialize (Hsteps Hall). clear Hall.
  induction Hsteps as [st|st st' st'' Hstep _ IH].
  - split; [by left|done].
  - destruct IH as [IHn IHd]. split.
    + intros name Hin. destruct (IHn name Hin) as [Hin'|?]; [|by right].
      destruct (step_names _ _ _ _ Hstep Hin') as [?|Hs]; [by left|].
      right. by apply stale_false.
    + intros Hnd. by apply IHd, (step_nodup _ _ _ Hstep).
Qed.

Lemma store_names_invariant_witness :
  NoDup (Store.names
           (caches (after (dispatch_all Examples.origin Platform.Date_parse
                             Platform.JSON_stringify Platform.JSON_parse
                             [ Install Examples.bundle_missing;
                               Fetch Examples.offline Examples.api_request;
                               Activate ])
                      (Examples.with_caches Examples.two_shells)))).
Proof.
  apply (proj2 (store_names_invariant Examples.origin Platform.Date_parse
                  Platform.JSON_stringify Platform.JSON_parse _
                  (Examples.with_caches Examples.two_shells))).
  apply NoDup_cons. split.
  - intros Hin. apply list_elem_of_In in Hin. simpl in Hin.
    destruct Hin as [Heq|[]]. discriminate Heq.
  - apply NoDup_singleton.
Defined.

(** X8. Only install writes the SHELL generation: over any sequence of
    events without an install, every entry of the SHELL generation stays as
    it was. *)
Theorem only_install_writes_shell
    (origin : string) (Date_parse : string → option Z)
    (JSON_stringify : Snapshot → string) (JSON_parse : string → option Snapshot)
    (events : list Event) (w : World) (k : string) :
  Forall (λ e, is_install e = false) events →
  Store.lookup
    (caches (after (dispatch_all origin Date_parse JSON_stringify JSON_parse
                      events) w)) CACHE_NAME k
  = Store.lookup (caches w) CACHE_NAME k.
Proof.
  intros Hev.
  assert (rtc (store_step (λ name, name ≠ CACHE_NAME)) (caches w)
            (caches (after (dispatch_all origin Date_parse JSON_stringify
                              JSON_parse events) w))) as Hsteps.
  { apply dispatch_all_steps; [done|].
    eapply Forall_impl; [exact Hev|]. simpl. intros e -> ?. done. }
  induction Hsteps as [st|st st' st'' Hstep _ IH]; [done|].
  rewrite IH. by apply step_shell_kept.
Qed.

Lemma only_install_writes_shell_witness :
  Store.lookup
    (caches (after (dispatch_all Examples.origin Platform.Date_parse
                      Platform.JSON_stringify Platform.JSON_parse
                      [ Fetch Examples.offline Examples.api_request;
                        Message (MsgCacheTaskData Examples.one_task);
                        Activate;
                        PeriodicSync "task-reminders" 0 ])
               (Examples.with_caches Examples.two_shells)))
    CACHE_NAME (url Examples.index_request)
  = Some Examples.new_index.
Proof.
  rewrite only_install_writes_shell.
  - reflexivity.
  - repeat constructor.
Defined.

(** ** The reminder pass *)

Lemma checkTaskReminders_caches origin Date_parse JSON_parse now w :
  caches (after (checkTaskReminders origin Date_parse JSON_parse now) w) =
  Store.open DATA_CACHE_NAME (caches w).
Proof.
  unfold checkTaskReminders. rewrite after_bind, after_bind.
  change (after (cache_match ?n ?k) ?x) with x.
  destruct (result (cache_match _ _) _) as [r|]; [|done].
  destruct (JSON_parse (body r)) as [tasks|]; [|done].
  by rewrite (proj2 (remind_all _ _ _ _)).
Qed.

Lemma notice_Some Date_parse now task n :
  notice Date_parse now task = Some n ↔
  ∃ d due, dueDate task = Some d ∧ truthy d = true ∧
           Date_parse d = Some due ∧ daysDiff due now ≤ 0 ∧
           completed task = false ∧ n = reminder task (daysDiff due now).
Proof.
  unfold notice. split.
  - destruct (dueDate task) as [d|]; simpl; [|done].
    destruct (truthy d) eqn:Ht; [|done].
    destruct (Date_parse d) as [due|] eqn:Hp; simpl; [|done].
    destruct (daysDiff due now <=? 0) eqn:Hle; simpl; [|done].
    destruct (completed task); simpl; [done|]. intros [= <-].
    exists d, due. apply Z.leb_le in Hle. done.
  - intros (d & due & -> & Ht & Hp & Hle & Hc & ->). simpl.
    rewrite Ht, Hp. simpl. apply Z.leb_le in Hle. by rewrite Hle, Hc.
Qed.

(** X9. A reminder pass changes no entry of the store, and it shows
    nothing when no snapshot is stored or when the stored body is not
    JSON. *)
Theorem reminder_pass_silent_without_snapshot
    (origin : string) (Date_parse : string → option Z)
    (JSON_parse : string → option Snapshot) (now : Z) (w : World) :
  (∀ g k,
     Store.lookup
       (caches (after (checkTaskReminders origin Date_parse JSON_parse now) w))
       g k
     = Store.lookup (caches w) g k) ∧
  (Store.lookup (caches w) DATA_CACHE_NAME (resolve origin "/tasks-data") = None →
   shown (after (checkTaskReminders origin Date_parse JSON_parse now) w)
   = shown w) ∧
  (∀ r, Store.lookup (caches w) DATA_CACHE_NAME (resolve origin "/tasks-data")
        = Some r →
        JSON_parse (body r) = None →
        shown (after (checkTaskReminders origin Date_parse JSON_parse now) w)
        = shown w).
Proof.
  assert (Store.match_cache (caches w) DATA_CACHE_NAME
            (Request_of (resolve origin "/tasks-data")) =
          match Store.lookup (caches w) DATA_CACHE_NAME
                  (resolve origin "/tasks-data") with
          | Some r => if matches (Request_of (resolve origin "/tasks-data")) r
                      then Some r else None
          | None => None
          end) as Hmatch.
  { rewrite match_cache_lookup. simpl.
    by rewrite (resolve_key origin "/tasks-data" eq_refl). }
  split; [|split].
  - intros g k. rewrite checkTaskReminders_caches. apply lookup_open.
  - intros Hnone. rewrite checkTaskReminders_shown, Hmatch, Hnone.
    apply app_nil_r.
  - intros r Hr Hp. rewrite checkTaskReminders_shown, Hmatch, Hr.
    destruct (matches _ r); [rewrite Hp|]; apply app_nil_r.
Qed.

Lemma reminder_pass_silent_without_snapshot_witness :
  shown (after (checkTaskReminders Examples.origin Platform.Date_parse
                  Platform.JSON_parse (Platform.utc_ms 2024 1 5 0 0))
           (Examples.with_caches Examples.shell_only))
  = [].
Proof.
  apply (reminder_pass_silent_without_snapshot Examples.origin
           Platform.Date_parse Platform.JSON_parse
           (Platform.utc_ms 2024 1 5 0 0)
           (Examples.with_caches Examples.shell_only)).
  reflexivity.
Defined.

(** The tasks a pass reminds of, in snapshot order. *)
Lemma reminded_tasks Date_parse now (tasks : list Task) :
  ∃ selected,
    sublist selected tasks ∧
    Forall2 (λ task n, notice Date_parse now task = Some n)
      selected (omap (notice Date_parse now) tasks).
Proof.
  induction tasks as [|t tasks (selected & Hsub & Hall)].
  - exists []. split; [done|constructor].
  - change (omap (notice Date_parse now) (t :: tasks)) with
      (match notice Date_parse now t with
       | Some n => n :: omap (notice Date_parse now) tasks
       | None => omap (notice Date_parse now) tasks
       end).
    destruct (notice Date_parse now t) as [n|] eqn:Hn.
    + exists (t :: selected). split; [by apply sublist_skip|by constructor].
    + exists selected. split; [by apply sublist_cons|done].
Qed.

(** X10. The notifications of a reminder pass are, one for one and in
    snapshot order, the reminders of a selection of the stored tasks (each
    stored task is selected at most once): every selected task is not
    completed and has a due date that parses to a day difference of at
    most 0, and its notification is tagged with its id. *)
Theorem reminders_come_from_open_tasks
    (origin : string) (Date_parse : string → option Z)
    (JSON_parse : string → option Snapshot) (now : Z) (w : World)
    (r : Response) (tasks : Snapshot) :
  Store.match_cache (caches w) DATA_CACHE_NAME
    (Request_of (resolve origin "/tasks-data")) = Some r →
  JSON_parse (body r) = Some tasks →
  ∃ (selected : list Task) (l : list Notification),
    shown (after (checkTaskReminders origin Date_parse JSON_parse now) w)
      = shown w ++ l ∧
    sublist selected (concat tasks.*2) ∧
    Forall2
      (λ task n,
         ∃ d due,
           completed task = false ∧
           dueDate task = Some d ∧ Date_parse d = Some due ∧
           daysDiff due now ≤ 0 ∧
           n = reminder task (daysDiff due now) ∧
           n_tag n = Some ("task-" +:+ id_to_string (id task)))
      selected l.
Proof.
  intros Hr Hp.
  destruct (reminded_tasks Date_parse now (concat tasks.*2))
    as (selected & Hsub & Hall).
  exists selected, (omap (notice Date_parse now) (concat tasks.*2)).
  split; [by rewrite checkTaskReminders_shown, Hr, Hp|]. split; [done|].
  eapply Forall2_impl; [exact Hall|]. simpl. intros task n Hn.
  apply notice_Some in Hn as (d & due & Hd & _ & Hdue & Hle & Hc & ->).
  by exists d, due.
Qed.

Lemma reminders_come_from_open_tasks_witness :
  ∃ (selected : list Task) (l : list Notification),
    shown (after (checkTaskReminders Examples.origin Platform.Date_parse
                    Platform.JSON_parse (Platform.utc_ms 2024 1 5 0 0))
             (after (on_message Examples.origin Platform.JSON_stringify
                       (MsgCacheTaskData Examples.two_tasks))
                Examples.empty_world))
      = [] ++ l ∧
    sublist selected (concat Examples.two_tasks.*2) ∧
    length selected = length l.
Proof.
  destruct (reminders_come_from_open_tasks Examples.origin Platform.Date_parse
              Platform.JSON_parse (Platform.utc_ms 2024 1 5 0 0)
              (after (on_message Examples.origin Platform.JSON_stringify
                        (MsgCacheTaskData Examples.two_tasks))
                 Examples.empty_world)
              (new_Response (Platform.JSON_stringify Examples.two_tasks))
              Examples.two_tasks)
    as (selected & l & Hl & Hsub & Hall).
  - by vm_compute.
  - by vm_compute.
  - exists selected, l. split; [exact Hl|]. split; [exact Hsub|].
    by apply Forall2_length in Hall.
Defined.

(** X11. The pass keeps no record of what it has shown: a second pass at
    the same time over the unchanged store shows the same notifications
    again. *)
Theorem repeated_pass_notifies_again
    (origin : string) (Date_parse : string → option Z)
    (JSON_parse : string → option Snapshot) (now : Z) (w : World) :
  ∃ l,
    shown (after (checkTaskReminders origin Date_parse JSON_parse now) w)
      = shown w ++ l ∧
    shown (after (checkTaskReminders origin Date_parse JSON_parse now)
             (after (checkTaskReminders origin Date_parse JSON_parse now) w))
      = shown w ++ l ++ l.
Proof.
  eexists. split; [apply checkTaskReminders_shown|].
  rewrite (checkTaskReminders_shown _ _ _ _ (after _ w)).
  rewrite checkTaskReminders_caches, match_cache_open, checkTaskReminders_shown.
  by rewrite <- app_assoc.
Qed.

(** X12. For a task that is not completed and whose due date parses: no
    notification while the due time lies ahead; the wording [due today]
    from the due time until 24 hours after it; [overdue] from then on. *)
Theorem due_today_window
    (Date_parse : string → option Z) (now due : Z) (task : Task) (d : string)
    (w : World) :
  dueDate task = Some d → truthy d = true → Date_parse d = Some due →
  completed task = false →
  (now < due →
   shown (after (remind Date_parse now task) w) = shown w) ∧
  (due ≤ now < due + MS_PER_DAY →
   shown (after (remind Date_parse now task) w) = shown w ++ [reminder task 0] ∧
   due_label 0 = "due today") ∧
  (due + MS_PER_DAY ≤ now →
   ∃ days, days < 0 ∧
     shown (after (remind Date_parse now task) w)
       = shown w ++ [reminder task days] ∧
     due_label days = "overdue").
Proof.
  intros Hd Ht Hp Hc.
  rewrite (proj1 (remind_after Date_parse now task w)).
  rewrite (notice_due Date_parse now task d due Hd Ht Hp), Hc.
  pose proof (proj1 (daysDiff_spec due now (daysDiff due now)) eq_refl) as Hq.
  pose proof MS_PER_DAY_pos as Hpos.
  split; [|split].
  - intros Hlt. rewrite (proj2 (Z.leb_gt _ _)) by nia. simpl. apply app_nil_r.
  - intros Hwin. assert (daysDiff due now = 0) as ->; [|done].
    apply daysDiff_spec. lia.
  - intros Hlate. exists (daysDiff due now).
    assert (daysDiff due now < 0) as Hneg by nia.
    rewrite (proj2 (Z.leb_le _ _)) by lia. simpl.
    split; [done|]. split; [done|].
    unfold due_label. by rewrite (proj2 (Z.eqb_neq _ _)) by lia.
Qed.

Lemma due_today_window_witness :
  shown (after (remind Platform.Date_parse (Platform.utc_ms 2024 1 10 15 30)
                  (Examples.due_at "2024-01-10")) Examples.empty_world)
  = [reminder (Examples.due_at "2024-01-10") 0].
Proof.
  apply (due_today_window Platform.Date_parse (Platform.utc_ms 2024 1 10 15 30)
           (Platform.utc_ms 2024 1 10 0 0) (Examples.due_at "2024-01-10")
           "2024-01-10" Examples.empty_world); by vm_compute.
Defined.

(** X13. A task is never reminded of when it has no due date, an empty
    due date, a due date that does not parse, or is completed, however
    late it is. *)
Theorem never_reminded
    (Date_parse : string → option Z) (now : Z) (task : Task) (w : World) :
  dueDate task = None ∨
  dueDate task = Some EmptyString ∨
  (∃ d, dueDate task = Some d ∧ Date_parse d = None) ∨
  completed task = true →
  after (remind Date_parse now task) w = w.
Proof.
  unfold remind. intros [-> | [-> | [(d & -> & Hp) | Hc]]]; [done|done| |].
  - rewrite Hp. by destruct (truthy d).
  - destruct (dueDate task) as [d|]; [|done].
    destruct (truthy d); [|done]. destruct (Date_parse d); [|done].
    simpl. by rewrite Hc, andb_false_r.
Qed.

Lemma never_reminded_witness :
  after (remind Platform.Date_parse (Platform.utc_ms 2024 1 10 0 0)
           (Examples.due_at "next week")) Examples.empty_world
  = Examples.empty_world.
Proof.
  apply never_reminded. right. right. left. exists "next week".
  split; by vm_compute.
Defined.

(** ** sync *)

Lemma for_each_post (m : ClientMessage) (l : list (nat * Client)) w :
  posted (after (for_each (λ client, postMessage client.1 m) l) w) =
  posted w ++ ((λ client, (client.1, m)) <$> l).
Proof.
  revert w. induction l as [|c l IH]; intros w; simpl.
  - by rewrite app_nil_r.
  - rewrite after_bind, IH. unfold after at 1. simpl.
    by rewrite <- app_assoc.
Qed.

Lemma syncTasks_posted w :
  posted (after syncTasks w) =
  posted w ++
  ((λ client, (client.1, SYNC_COMPLETE)) <$>
     List.filter (λ c : nat * Client, false || controlled c.2)
       (imap (λ i c, (i, c)) (windows w))).
Proof. unfold syncTasks. rewrite after_bind. apply for_each_post. Qed.

(** X14. The sync listener acts on the tag [background-sync-tasks] only;
    it then posts SYNC_COMPLETE, and nothing else, to the window clients
    the worker controls and to no other. *)
Theorem sync_broadcast (tag : string) (w : World) :
  (tag ≠ "background-sync-tasks" → after (on_sync tag) w = w) ∧
  (tag = "background-sync-tasks" →
   ∃ msgs,
     posted (after (on_sync tag) w) = posted w ++ msgs ∧
     ∀ i m, (i, m) ∈ msgs ↔
            m = SYNC_COMPLETE ∧
            ∃ c, windows w !! i = Some c ∧ controlled c = true).
Proof.
  unfold on_sync. split.
  - intros Hne. by rewrite bool_decide_eq_false_2.
  - intros ->. rewrite bool_decide_eq_true_2 by done.
    eexists. split; [apply syncTasks_posted|].
    intros i m. rewrite list_elem_of_fmap. split.
    + intros ([j c] & [= -> ->] & Hin).
      apply list_elem_of_In, filter_In in Hin as [Hin Hc].
      apply list_elem_of_In, elem_of_lookup_imap_1 in Hin
        as (i' & c' & [= -> ->] & Hl).
      split; [done|]. by exists c'.
    + intros (-> & c & Hl & Hc). exists (i, c). split; [done|].
      apply list_elem_of_In, filter_In. split; [|done].
      apply list_elem_of_In.
      apply (elem_of_lookup_imap_2 (λ i c, (i, c)) _ _ _ Hl).
Qed.

Lemma sync_broadcast_witness :
  ∃ msgs,
    posted (after (on_sync "background-sync-tasks")
              (Examples.with_windows Examples.three_windows))
    = [] ++ msgs ∧
    ∀ i m, (i, m) ∈ msgs ↔
           m = SYNC_COMPLETE ∧
           ∃ c, Examples.three_windows !! i = Some c ∧ controlled c = true.
Proof.
  apply (proj2 (sync_broadcast "background-sync-tasks"
                  (Examples.with_windows Examples.three_windows))).
  reflexivity.
Defined.

(** X15. Once activate has claimed the clients, a sync broadcast reaches
    every open window once, in the platform's order. *)
Theorem sync_after_activate_reaches_all (w : World) :
  posted (after (on_sync "background-sync-tasks") (after on_activate w)) =
  posted w ++ imap (λ i _, (i, SYNC_COMPLETE)) (windows w).
Proof.
  unfold on_sync. rewrite bool_decide_eq_true_2 by done.
  rewrite syncTasks_posted, on_activate_after. simpl. f_equal.
  rewrite filter_all.
  - rewrite fmap_imap, imap_fmap. by apply imap_ext.
  - intros [i c] Hin. apply list_elem_of_In, elem_of_lookup_imap_1 in Hin
      as (i' & c' & [= -> ->] & Hl).
    rewrite list_lookup_fmap in Hl.
    apply fmap_Some in Hl as (c0 & _ & ->). done.
Qed.

(** ** notificationclick *)

Lemma focus_or_open_effect (l : list (nat * Client)) w :
  after (focus_or_open l) w =
  match List.find shows_root l with
  | Some c => after (client_focus c.1) w
  | None => after (clients_openWindow "/") w
  end.
Proof.
  induction l as [|c l IH]; simpl; [done|].
  unfold shows_root at 1. by destruct (bool_decide (client_url c.2 = "/")).
Qed.

(** The first client showing the root view, in a client list numbered from
    [off]. *)
Lemma find_first_root (ws : list Client) (off : nat) :
  match List.find shows_root (imap (λ i c, ((off + i)%nat, c)) ws) with
  | Some ic =>
      ∃ k, ic.1 = (off + k)%nat ∧ ws !! k = Some ic.2 ∧
           client_url ic.2 = "/" ∧
           ∀ j c', (j < k)%nat → ws !! j = Some c' → client_url c' ≠ "/"
  | None => ∀ c, c ∈ ws → client_url c ≠ "/"
  end.
Proof.
  revert off. induction ws as [|c ws IH]; intros off.
  - simpl. intros c Hc. by apply elem_of_nil in Hc.
  - rewrite imap_cons. cbn [List.find]. unfold shows_root at 1. cbn [snd].
    destruct (decide (client_url c = "/")) as [Hroot|Hroot].
    + rewrite bool_decide_eq_true_2 by done. exists 0%nat. simpl.
      split; [lia|]. split; [done|]. split; [done|]. intros j c' Hj. lia.
    + rewrite bool_decide_eq_false_2 by done.
      rewrite (imap_ext _ (λ i c, ((S off + i)%nat, c))).
      2: { intros i x _. simpl. f_equal. lia. }
      specialize (IH (S off)).
      destruct (List.find shows_root _) as [ic|].
      * destruct IH as (k & Hk & Hl & Hu & Hfirst). exists (S k).
        split; [lia|]. split; [done|]. split; [done|].
        intros [|j] c' Hj Hc'; simpl in Hc'.
        -- by injection Hc' as <-.
        -- apply (Hfirst j); [lia|done].
      * intros c' [-> | Hin]%elem_of_cons; [done|by apply IH].
Qed.

Lemma clients_matchAll_all w :
  result (clients_matchAll true) w = imap (λ i c, ((0 + i)%nat, c)) (windows w) ∧
  after (clients_matchAll true) w = w.
Proof. split; [|done]. unfold result, clients_matchAll. simpl. by apply filter_all. Qed.

(** X16. A click closes the notification.  Only the action [view-tasks]
    goes on: it focuses the first window client whose URL is exactly the
    string ["/"] and opens nothing, or, when no client has that URL, opens
    one window at ["/"] and focuses none. *)
Theorem notification_click (act : string) (w : World) :
  closed (after (on_notificationclick act) w) = S (closed w) ∧
  caches (after (on_notificationclick act) w) = caches w ∧
  (act ≠ "view-tasks" →
   focused (after (on_notificationclick act) w) = focused w ∧
   opened (after (on_notificationclick act) w) = opened w) ∧
  (act = "view-tasks" →
   (∀ c, c ∈ windows w → client_url c ≠ "/") →
   focused (after (on_notificationclick act) w) = focused w ∧
   opened (after (on_notificationclick act) w) = opened w ++ ["/"]) ∧
  (act = "view-tasks" →
   ∀ i c, windows w !! i = Some c → client_url c = "/" →
          (∀ j c', (j < i)%nat → windows w !! j = Some c' →
                   client_url c' ≠ "/") →
          focused (after (on_notificationclick act) w) = focused w ++ [i] ∧
          opened (after (on_notificationclick act) w) = opened w).
Proof.
  assert (act = "view-tasks" →
          after (on_notificationclick act) w =
          after (focus_or_open (imap (λ i c, ((0 + i)%nat, c)) (windows w)))
            (after notification_close w)) as Hview.
  { intros ->. unfold on_notificationclick. rewrite after_bind.
    rewrite bool_decide_eq_true_2 by done. rewrite after_bind.
    destruct (clients_matchAll_all (after notification_close w)) as [-> ->].
    done. }
  pose proof (find_first_root (windows w) 0) as Hfind.
  split; [|split; [|split; [|split]]].
  - unfold on_notificationclick. rewrite after_bind.
    destruct (bool_decide (act = "view-tasks")); [|done].
    rewrite after_bind.
    destruct (clients_matchAll_all (after notification_close w)) as [-> ->].
    rewrite focus_or_open_effect. by destruct (List.find _ _).
  - unfold on_notificationclick. rewrite after_bind.
    destruct (bool_decide (act = "view-tasks")); [|done].
    rewrite after_bind.
    destruct (clients_matchAll_all (after notification_close w)) as [-> ->].
    rewrite focus_or_open_effect. by destruct (List.find _ _).
  - intros Hne. unfold on_notificationclick. rewrite after_bind.
    by rewrite bool_decide_eq_false_2.
  - intros Hact Hnone. rewrite (Hview Hact), focus_or_open_effect.
    change (windows (after notification_close w)) with (windows w).
    destruct (List.find _ _) as [ic|]; [|done].
    destruct Hfind as (k & _ & Hl & Hu & _).
    destruct (Hnone ic.2); [|done]. by apply list_elem_of_lookup_2 in Hl.
  - intros Hact i c Hi Hc Hfirst. rewrite (Hview Hact), focus_or_open_effect.
    change (windows (after notification_close w)) with (windows w).
    destruct (List.find _ _) as [ic|].
    + destruct Hfind as (k & Hk & Hl & Hu & Hfirst').
      assert (k = i) as ->.
      { destruct (Nat.lt_trichotomy k i) as [Hlt|[?|Hlt]]; [|done|].
        - by destruct (Hfirst k ic.2 Hlt Hl).
        - by destruct (Hfirst' i c Hlt Hi). }
      simpl in Hk. change (focused (after (client_focus ic.1) ?x))
        with (focused x ++ [ic.1]). by rewrite Hk.
    + destruct (Hfind c); [|done]. by apply list_elem_of_lookup_2 in Hi.
Qed.

Lemma notification_click_witness :
  focused (after (on_notificationclick "view-tasks")
             (Examples.with_windows Examples.three_windows)) = [2%nat] ∧
  opened (after (on_notificationclick "view-tasks")
            (Examples.with_windows Examples.three_windows)) = [].
Proof.
  destruct (notification_click "view-tasks"
              (Examples.with_windows Examples.three_windows))
    as (_ & _ & _ & _ & Hfocus).
  apply (Hfocus eq_refl 2%nat {| client_url := "/"; controlled := true |}).
  - reflexivity.
  - reflexivity.
  - intros [|[|j]] c' Hj Hc'; [| |lia]; injection Hc' as <-; by vm_compute.
Defined.
